(** * Union-find with path compression and union by size (graph/unionFind.cpp)

    A shallow embedding of [struct union_find] and a verification of its
    specification.  The three parallel vectors are lists of integers; a
    method is a function from the structure to an outcome carrying the
    returned value and the structure it leaves behind.  The recursion of
    [find] is driven by a fuel argument, and the theorems show that a
    fuel equal to the number of elements is always enough. *)

From stdpp Require Import base decidable option numbers list.

Local Open Scope Z_scope.

(** ** Outcomes of a C++ call *)

(** The two typed errors of the specification's taxonomy. *)
Inductive error : Type :=
| InvalidArgument
| IndexOutOfRange.

(** A call returns normally, throws a typed error, runs into undefined
    behaviour (an unchecked [operator[]] past the end of a vector, or a
    signed overflow), or has not returned when the fuel ran out. *)
Inductive outcome (A : Type) : Type :=
| Ret (x : A)
| Throw (e : error)
| Undefined
| OutOfFuel.

Arguments Ret {A} x.
Arguments Throw {A} e.
Arguments Undefined {A}.
Arguments OutOfFuel {A}.

Definition outcome_bind {A B : Type} (f : A → outcome B) (m : outcome A) : outcome B :=
  match m with
  | Ret x => f x
  | Throw e => Throw e
  | Undefined => Undefined
  | OutOfFuel => OutOfFuel
  end.

#[export] Instance outcome_ret : MRet outcome := @Ret.
#[export] Instance outcome_mbind : MBind outcome := @outcome_bind.

(** The call [m] does not end in a typed error. *)
Definition no_throw {A : Type} (m : outcome A) : Prop := ∀ e, m ≠ Throw e.

(** ** Machine integers and vectors *)

Definition INT_MIN : Z := - 2 ^ 31.
Definition INT_MAX : Z := 2 ^ 31 - 1.

Definition is_int (z : Z) : Prop := INT_MIN ≤ z ≤ INT_MAX.

(** [x + y] on [int]: overflow of a signed addition is undefined. *)
Definition int_add (x y : Z) : outcome Z :=
  if bool_decide (is_int (x + y)) then Ret (x + y) else Undefined.

(** The element of [v] at index [i], if [i] is a position of [v]. *)
Definition at_ {A : Type} (v : list A) (i : Z) : option A :=
  if bool_decide (0 ≤ i) then v !! Z.to_nat i else None.

(** [v[i]] as an rvalue: [operator[]] does no bounds check. *)
Definition vread {A : Type} (v : list A) (i : Z) : outcome A :=
  match at_ v i with
  | Some x => Ret x
  | None => Undefined
  end.

(** [v[i] = x]. *)
Definition vwrite {A : Type} (v : list A) (i : Z) (x : A) : outcome (list A) :=
  match at_ v i with
  | Some _ => Ret (<[Z.to_nat i := x]> v)
  | None => Undefined
  end.

(** ** The structure *)

Record union_find : Type := mk_union_find {
  component_size : list Z;
  repr : list Z;
  additionalInfo : list (Z * Z);
}.

Definition set_component_size (s : union_find) (v : list Z) : union_find :=
  {| component_size := v; repr := repr s; additionalInfo := additionalInfo s |}.

Definition set_repr (s : union_find) (v : list Z) : union_find :=
  {| component_size := component_size s; repr := v; additionalInfo := additionalInfo s |}.

Definition set_additionalInfo (s : union_find) (v : list (Z * Z)) : union_find :=
  {| component_size := component_size s; repr := repr s; additionalInfo := v |}.

(** The structure before the constructor body runs: three empty vectors. *)
Definition empty_union_find : union_find :=
  {| component_size := []; repr := []; additionalInfo := [] |}.

(** One iteration of the constructor's loop body. *)
Definition push_element (s : union_find) (i : Z) : union_find :=
  {| component_size := component_size s ++ [1];
     repr := repr s ++ [i];
     additionalInfo := additionalInfo s ++ [(i, i)] |}.

(** [for (int i = 0; i < number_of_elements; i++) { ... }], started at [i]. *)
Fixpoint ctor_loop (fuel : nat) (number_of_elements i : Z) (s : union_find) : union_find :=
  match fuel with
  | O => s
  | S fuel' =>
      if bool_decide (i < number_of_elements)
      then ctor_loop fuel' number_of_elements (i + 1) (push_element s i)
      else s
  end.

(** [union_find(int number_of_elements)].  The loop runs at most
    [number_of_elements] times, so that many units of fuel exhaust it. *)
Definition union_find_ctor (number_of_elements : Z) : outcome union_find :=
  Ret (ctor_loop (Z.to_nat number_of_elements) number_of_elements 0 empty_union_find).

(** [int find(int a)]. *)
Fixpoint find (fuel : nat) (a : Z) (s : union_find) : outcome (Z * union_find) :=
  match fuel with
  | O => OutOfFuel
  | S fuel' =>
      ra ← vread (repr s) a;
      if bool_decide (ra = a) then Ret (a, s)
      else
        '(r, s1) ← find fuel' ra s;
        repr1 ← vwrite (repr s1) a r;
        let s2 := set_repr s1 repr1 in
        ra' ← vread (repr s2) a;
        Ret (ra', s2)
  end.

(** [int size(int a)]. *)
Definition size (fuel : nat) (a : Z) (s : union_find) : outcome (Z * union_find) :=
  '(a, s) ← find fuel a s;
  n ← vread (component_size s) a;
  Ret (n, s).

(** [void merge(int gravity, int pebble)]. *)
Definition merge (fuel : nat) (gravity pebble : Z) (s : union_find) : outcome union_find :=
  '(gravity, s) ← find fuel gravity s;
  '(pebble, s) ← find fuel pebble s;
  if bool_decide (gravity = pebble) then Ret s
  else
    sp ← vread (component_size s) pebble;
    sg ← vread (component_size s) gravity;
    let '(pebble, gravity) :=
      if bool_decide (sp > sg) then (gravity, pebble) else (pebble, gravity) in
    repr1 ← vwrite (repr s) pebble gravity;
    let s := set_repr s repr1 in
    cg ← vread (component_size s) gravity;
    cp ← vread (component_size s) pebble;
    sum ← int_add cg cp;
    size1 ← vwrite (component_size s) gravity sum;
    let s := set_component_size s size1 in
    size2 ← vwrite (component_size s) pebble 0;
    let s := set_component_size s size2 in
    ig ← vread (additionalInfo s) gravity;
    ip ← vread (additionalInfo s) pebble;
    info1 ← vwrite (additionalInfo s) gravity (Z.min ig.1 ip.1, ig.2);
    let s := set_additionalInfo s info1 in
    ig ← vread (additionalInfo s) gravity;
    ip ← vread (additionalInfo s) pebble;
    info2 ← vwrite (additionalInfo s) gravity (ig.1, Z.max ig.2 ip.2);
    let s := set_additionalInfo s info2 in
    Ret s.

(** The loop body of [count_islands] for one element [el]. *)
Definition count_step (count : outcome Z) (el : Z) : outcome Z :=
  c ← count;
  if bool_decide (el > 0) then int_add c 1 else Ret c.

(** [int count_islands()]. *)
Definition count_islands (s : union_find) : outcome Z :=
  foldl count_step (Ret 0) (component_size s).

(** [bool get(int u, int v)]. *)
Definition get (fuel : nat) (u v : Z) (s : union_find) : outcome (bool * union_find) :=
  '(u, s) ← find fuel u s;
  '(v, s) ← find fuel v s;
  if bool_decide (u = v) then Ret (true, s) else Ret (false, s).

(** ** Following the representative links *)

(** [reaches p k a r]: following [p] from [a] for [k] steps arrives at [r],
    the first element on the way that is its own representative. *)
Inductive reaches (p : list Z) : nat → Z → Z → Prop :=
| reaches_root a :
    at_ p a = Some a → reaches p 0 a a
| reaches_step k a b r :
    at_ p a = Some b → b ≠ a → reaches p k b r → reaches p (S k) a r.

(** [r] is the representative of [a]'s component. *)
Definition rep_of (p : list Z) (a r : Z) : Prop := ∃ k, reaches p k a r.

(** One step along the links. *)
Definition parent (p : list Z) (i : Z) : Z := default i (at_ p i).

(** [x] is visited on the walk from [a] to its representative. *)
Inductive on_path (p : list Z) : Z → Z → Prop :=
| on_path_here a : on_path p a a
| on_path_next a b x :
    at_ p a = Some b → b ≠ a → on_path p b x → on_path p a x.

(** ** Observations on a structure *)

(** The element identifiers [0 .. n-1]. *)
Definition elements (s : union_find) : list Z :=
  seqZ 0 (Z.of_nat (length (repr s))).

(** The representative [find] reports for [a], the fuel being the number
    of elements. *)
Definition find_rep (s : union_find) (a : Z) : option Z :=
  match find (length (repr s)) a s with
  | Ret (r, _) => Some r
  | _ => None
  end.

(** The elements whose representative is [r]. *)
Definition members (s : union_find) (r : Z) : list Z :=
  filter (λ i, find_rep s i = Some r) (elements s).

(** The elements that are their own representative. *)
Definition representatives (s : union_find) : list Z :=
  filter (λ r, at_ (repr s) r = Some r) (elements s).

(** What [size a] returns. *)
Definition size_of (s : union_find) (a : Z) : option Z :=
  match size (length (repr s)) a s with
  | Ret (n, _) => Some n
  | _ => None
  end.

(** What [get u v] returns. *)
Definition same (s : union_find) (u v : Z) : option bool :=
  match get (length (repr s)) u v s with
  | Ret (b, _) => Some b
  | _ => None
  end.

Definition sumZ (l : list Z) : Z := foldr Z.add 0 l.

Definition list_min (l : list Z) : option Z :=
  match l with
  | [] => None
  | x :: l' => Some (foldl Z.min x l')
  end.

Definition list_max (l : list Z) : option Z :=
  match l with
  | [] => None
  | x :: l' => Some (foldl Z.max x l')
  end.

(** [find a] called [k + 1] times in a row. *)
Fixpoint find_again (k fuel : nat) (a : Z) (s : union_find) : outcome (Z * union_find) :=
  match k with
  | O => find fuel a s
  | S k' => '(_, s') ← find fuel a s; find_again k' fuel a s'
  end.

(** ** The effect of [merge] *)

(** The structure in which the representative [lose], of a component of
    size [cl] and bounds [il], hangs below the representative [win], of a
    component of size [cw] and bounds [iw]. *)
Definition link (s : union_find) (win lose cw cl : Z) (iw il : Z * Z) : union_find :=
  {| component_size :=
       <[Z.to_nat lose := 0]> (<[Z.to_nat win := cw + cl]> (component_size s));
     repr := <[Z.to_nat lose := win]> (repr s);
     additionalInfo :=
       <[Z.to_nat win := (Z.min iw.1 il.1, Z.max iw.2 il.2)]> (additionalInfo s) |}.

(** What [merge] makes of [s] when its arguments have the representatives
    [rx] and [ry]. *)
Definition merge_post (s : union_find) (rx ry : Z) (s' : union_find) : Prop :=
  length (repr s') = length (repr s) ∧
  if decide (rx = ry) then
    component_size s' = component_size s ∧
    additionalInfo s' = additionalInfo s ∧
    ∀ a r, rep_of (repr s') a r ↔ rep_of (repr s) a r
  else
    ∃ cx cy ix iy win lose,
      at_ (component_size s) rx = Some cx ∧
      at_ (component_size s) ry = Some cy ∧
      at_ (additionalInfo s) rx = Some ix ∧
      at_ (additionalInfo s) ry = Some iy ∧
      (if bool_decide (cy > cx) then (rx, ry) else (ry, rx)) = (lose, win) ∧
      component_size s' =
        <[Z.to_nat lose := 0]> (<[Z.to_nat win := cx + cy]> (component_size s)) ∧
      additionalInfo s' =
        <[Z.to_nat win := (Z.min ix.1 iy.1, Z.max ix.2 iy.2)]> (additionalInfo s) ∧
      at_ (repr s') lose = Some win ∧
      at_ (repr s') win = Some win ∧
      ∀ a r, rep_of (repr s') a r ↔
        (rep_of (repr s) a r ∧ r ≠ lose) ∨ (rep_of (repr s) a lose ∧ r = win).

(** ** Well-formed and reachable structures *)

Record wf (s : union_find) : Prop := {
  wf_size_len : length (component_size s) = length (repr s);
  wf_info_len : length (additionalInfo s) = length (repr s);
  wf_int : Z.of_nat (length (repr s)) ≤ INT_MAX;
  wf_rep : ∀ a, 0 ≤ a < Z.of_nat (length (repr s)) → ∃ r, rep_of (repr s) a r;
  wf_size : ∀ r, rep_of (repr s) r r →
    at_ (component_size s) r = Some (Z.of_nat (length (members s r)));
  wf_absorbed : ∀ i, 0 ≤ i < Z.of_nat (length (repr s)) → ¬ rep_of (repr s) i i →
    at_ (component_size s) i = Some 0;
  wf_info : ∀ r, rep_of (repr s) r r →
    ∃ lo hi, at_ (additionalInfo s) r = Some (lo, hi) ∧
      rep_of (repr s) lo r ∧ rep_of (repr s) hi r ∧
      ∀ i, rep_of (repr s) i r → lo ≤ i ≤ hi;
  wf_sum : sumZ (component_size s) = Z.of_nat (length (repr s));
}.

(** The structures a program can hold: built by the constructor from an
    [int], then changed by calls that returned. *)
Inductive reachable : union_find → Prop :=
| reachable_ctor n s :
    is_int n → union_find_ctor n = Ret s → reachable s
| reachable_find fuel a s r s' :
    reachable s → find fuel a s = Ret (r, s') → reachable s'
| reachable_size fuel a s n s' :
    reachable s → size fuel a s = Ret (n, s') → reachable s'
| reachable_merge fuel x y s s' :
    reachable s → merge fuel x y s = Ret s' → reachable s'
| reachable_get fuel u v s b s' :
    reachable s → get fuel u v s = Ret (b, s') → reachable s'.

(** ** A worked scenario *)

(** Five elements after [merge(0,1)], [merge(2,3)] and [merge(1,2)]. *)
Definition scenario : union_find :=
  {| component_size := [4; 0; 0; 0; 1];
     repr := [0; 0; 0; 2; 4];
     additionalInfo := [(0, 3); (1, 1); (2, 3); (3, 3); (4, 4)] |}.

(** Four singletons. *)
Definition four : union_find :=
  {| component_size := [1; 1; 1; 1];
     repr := [0; 1; 2; 3];
     additionalInfo := [(0, 0); (1, 1); (2, 2); (3, 3)] |}.

(** The scenario after [find(3)] has compressed the walk from 3. *)
Definition scenario_flat : union_find :=
  {| component_size := [4; 0; 0; 0; 1];
     repr := [0; 0; 0; 0; 4];
     additionalInfo := [(0, 3); (1, 1); (2, 3); (3, 3); (4, 4)] |}.

(** The scenario after [merge(4,3)]: one component of five. *)
Definition scenario_merged : union_find :=
  {| component_size := [5; 0; 0; 0; 0];
     repr := [0; 0; 0; 0; 0];
     additionalInfo := [(0, 4); (1, 1); (2, 3); (3, 3); (4, 4)] |}.

(** ** Sequences of merges *)

(** The calls [merge(x, y)] for the pairs of [ms], one after the other. *)
Fixpoint merges (fuel : nat) (ms : list (Z * Z)) (s : union_find) : outcome union_find :=
  match ms with
  | [] => Ret s
  | (x, y) :: ms' => s' ← merge fuel x y s; merges fuel ms' s'
  end.

(** The equivalence generated by a relation [R] and the pairs of [ms]. *)
Inductive joined (R : Z → Z → Prop) (ms : list (Z * Z)) : Z → Z → Prop :=
| joined_base u v : R u v → joined R ms u v
| joined_pair x y : (x, y) ∈ ms → joined R ms x y
| joined_sym u v : joined R ms u v → joined R ms v u
| joined_trans u v w : joined R ms u v → joined R ms v w → joined R ms u w.

(** [u] and [v] are among [0 .. n-1] and linked by a chain of pairs of
    [ms]. *)
Definition connected (n : Z) (ms : list (Z * Z)) : Z → Z → Prop :=
  joined (λ u v, u = v ∧ 0 ≤ u < n) ms.

(** ** The size heuristic *)

(** Every walk of [k] steps ends in a representative whose component has
    at least [2 ^ k] elements. *)
Definition balanced (s : union_find) : Prop :=
  ∀ k a r, reaches (repr s) k a r → 2 ^ Z.of_nat k ≤ Z.of_nat (length (members s r)).

(** ** Reading and writing vectors *)

Section vectors.
Context {A : Type}.
Implicit Types (v : list A) (i j : Z) (x y : A).

Lemma at_Some_range v i x : at_ v i = Some x → 0 ≤ i < Z.of_nat (length v).
Proof.
  unfold at_. case_bool_decide; [|done].
  intros Hl%lookup_lt_Some. lia.
Qed.

Lemma at_in_range v i : 0 ≤ i < Z.of_nat (length v) → is_Some (at_ v i).
Proof.
  intros Hi. unfold at_. rewrite bool_decide_eq_true_2 by lia.
  apply lookup_lt_is_Some. lia.
Qed.

Lemma at_None v i : ¬ (0 ≤ i < Z.of_nat (length v)) → at_ v i = None.
Proof.
  intros Hi. destruct (at_ v i) as [x|] eqn:E; [|done].
  apply at_Some_range in E. lia.
Qed.

Lemma at_insert_eq v i x :
  0 ≤ i < Z.of_nat (length v) → at_ (<[Z.to_nat i := x]> v) i = Some x.
Proof.
  intros Hi. unfold at_. rewrite bool_decide_eq_true_2 by lia.
  apply list_lookup_insert_eq. lia.
Qed.

Lemma at_insert_ne v i j x :
  0 ≤ j → i ≠ j → at_ (<[Z.to_nat j := x]> v) i = at_ v i.
Proof.
  intros Hj Hne. unfold at_. case_bool_decide; [|done].
  apply list_lookup_insert_ne. lia.
Qed.

Lemma at_insert v i j x :
  0 ≤ j < Z.of_nat (length v) →
  at_ (<[Z.to_nat j := x]> v) i = if decide (i = j) then Some x else at_ v i.
Proof.
  intros Hj. destruct (decide (i = j)) as [->|Hne].
  - by apply at_insert_eq.
  - apply at_insert_ne; [lia|done].
Qed.

Lemma at_ext v w :
  length v = length w → (∀ i, 0 ≤ i < Z.of_nat (length v) → at_ v i = at_ w i) → v = w.
Proof.
  intros Hlen H. apply list_eq. intros n.
  destruct (decide (n < length v)%nat) as [Hn|Hn].
  - specialize (H (Z.of_nat n)). unfold at_ in H.
    rewrite bool_decide_eq_true_2, Nat2Z.id in H by lia. apply H. lia.
  - rewrite !lookup_ge_None_2; [done|lia|lia].
Qed.

Lemma vread_Some v i x : at_ v i = Some x → vread v i = Ret x.
Proof. unfold vread. by intros ->. Qed.

Lemma vread_None v i : at_ v i = None → vread v i = Undefined.
Proof. unfold vread. by intros ->. Qed.

Lemma vread_Ret v i x : vread v i = Ret x → at_ v i = Some x.
Proof. unfold vread. destruct (at_ v i); naive_solver. Qed.

Lemma vwrite_Some v i x y : at_ v i = Some y → vwrite v i x = Ret (<[Z.to_nat i := x]> v).
Proof. unfold vwrite. by intros ->. Qed.

Lemma vwrite_Ret v i x w :
  vwrite v i x = Ret w → w = <[Z.to_nat i := x]> v ∧ 0 ≤ i < Z.of_nat (length v).
Proof.
  unfold vwrite. destruct (at_ v i) eqn:E; [|done].
  intros [= <-]. split; [done|]. by eapply at_Some_range.
Qed.
End vectors.

(** ** Properties of the representative links *)

Section links.
Implicit Types (p q : list Z) (a b r x y : Z) (k : nat).

Lemma reaches_fun p k k' a r r' :
  reaches p k a r → reaches p k' a r' → k = k' ∧ r = r'.
Proof.
  intros H. revert k' r'.
  induction H as [a Ha|k a b r Ha Hne H IH]; intros k' r' H'.
  - inversion H'; simplify_eq; done.
  - inversion H'; simplify_eq.
    destruct (IH _ _ ltac:(eassumption)) as [-> ->]. done.
Qed.

Lemma reaches_fixed p k a r : reaches p k a r → at_ p r = Some r.
Proof. induction 1; done. Qed.

Lemma reaches_range p k a r : reaches p k a r → 0 ≤ a < Z.of_nat (length p).
Proof. destruct 1; by eapply at_Some_range. Qed.

Lemma reaches_zero p a r : reaches p 0 a r → a = r ∧ at_ p a = Some a.
Proof. inversion 1; done. Qed.

(** A walk is an iteration of [parent] that ends in a fixed point. *)
Lemma reaches_iter p k a r :
  reaches p k a r → Nat.iter k (parent p) a = r ∧ parent p r = r.
Proof.
  induction 1 as [a Ha|k a b r Ha Hne H [IH1 IH2]].
  - unfold parent. by rewrite Ha.
  - split; [|done]. rewrite Nat.iter_succ_r. unfold parent at 2. by rewrite Ha.
Qed.

(** The nodes of a walk are pairwise different: they lie at different
    distances from the representative. *)
Lemma reaches_walk p k a r :
  reaches p k a r →
  ∃ w : list Z, length w = S k ∧ NoDup w ∧
    ∀ x, x ∈ w → ∃ j, (j ≤ k)%nat ∧ reaches p j x r.
Proof.
  induction 1 as [a Ha|k a b r Ha Hne H (w & Hlen & Hnd & Hw)].
  - exists [a]. split_and!; [done|apply NoDup_singleton|].
    intros x ->%list_elem_of_singleton. exists 0%nat. split; [lia|by constructor].
  - exists (a :: w). split_and!.
    + simpl. by rewrite Hlen.
    + apply NoDup_cons. split; [|done].
      intros (j & Hj & Hr)%Hw.
      assert (reaches p (S k) a r) as Ha' by (econstructor; eauto).
      destruct (reaches_fun _ _ _ _ _ _ Hr Ha'). lia.
    + intros x [->|Hx]%elem_of_cons.
      * exists (S k). split; [lia|]. econstructor; eauto.
      * destruct (Hw _ Hx) as (j & Hj & Hr). exists j. split; [lia|done].
Qed.

(** A walk is shorter than the vector. *)
Lemma reaches_bound p k a r : reaches p k a r → (k < length p)%nat.
Proof.
  intros (w & Hlen & Hnd & Hw)%reaches_walk.
  assert (w ⊆+ seqZ 0 (Z.of_nat (length p))) as Hsub.
  { apply NoDup_submseteq; [done|]. intros x (j & _ & Hr)%Hw.
    apply elem_of_seqZ. apply reaches_range in Hr. lia. }
  apply submseteq_length in Hsub. rewrite length_seqZ in Hsub. lia.
Qed.

Lemma rep_of_root p a : at_ p a = Some a → rep_of p a a.
Proof. intros. exists 0%nat. by constructor. Qed.

Lemma rep_of_fun p a r r' : rep_of p a r → rep_of p a r' → r = r'.
Proof. intros [k H] [k' H']. by destruct (reaches_fun _ _ _ _ _ _ H H'). Qed.

Lemma rep_of_fixed p a r : rep_of p a r → at_ p r = Some r.
Proof. intros [k H]. by eapply reaches_fixed. Qed.

Lemma rep_of_range p a r : rep_of p a r → 0 ≤ a < Z.of_nat (length p).
Proof. intros [k H]. by eapply reaches_range. Qed.

Lemma rep_of_rep_range p a r : rep_of p a r → 0 ≤ r < Z.of_nat (length p).
Proof. intros H%rep_of_fixed. by eapply at_Some_range. Qed.

Lemma rep_of_idem p a r : rep_of p a r → rep_of p r r.
Proof. intros H%rep_of_fixed. by apply rep_of_root. Qed.

Lemma rep_of_step p a b r : at_ p a = Some b → rep_of p b r → rep_of p a r.
Proof.
  intros Ha [k H]. destruct (decide (b = a)) as [->|Hne]; [by exists k|].
  exists (S k). econstructor; eauto.
Qed.

Lemma rep_of_next p a b r : at_ p a = Some b → rep_of p a r → rep_of p b r.
Proof.
  intros Ha [k H]. inversion H; simplify_eq.
  - by apply rep_of_root.
  - by eexists.
Qed.

Lemma rep_of_root_eq p a r : at_ p a = Some a → rep_of p a r → r = a.
Proof. intros Ha H. eapply rep_of_fun; [done|]. by apply rep_of_root. Qed.

Lemma on_path_rep_of p a x r : on_path p a x → rep_of p a r → rep_of p x r.
Proof.
  induction 1 as [|a b x Ha Hne H IH]; [done|].
  intros Hr. apply IH. by eapply rep_of_next.
Qed.
End links.

(** ** Updating one link *)

Section link_updates.
Implicit Types (p q : list Z) (a b g r x y : Z) (k : nat).

(** Path compression of one node: pointing [a] straight at its own
    representative changes no representative. *)
Lemma rep_of_redirect p a r x y :
  rep_of p a r → rep_of (<[Z.to_nat a := r]> p) x y ↔ rep_of p x y.
Proof.
  intros Har.
  pose proof (rep_of_range _ _ _ Har) as Ha.
  pose proof (rep_of_fixed _ _ _ Har) as Hr.
  assert (∀ i, at_ (<[Z.to_nat a := r]> p) i = if decide (i = a) then Some r else at_ p i)
    as Hat by (intros; by apply at_insert).
  split; intros [k H].
  - remember (<[Z.to_nat a := r]> p) as q eqn:Hq.
    induction H as [x Hx|k x b y Hx Hne H IH]; subst q.
    + rewrite Hat in Hx. destruct (decide (x = a)) as [->|]; [|by apply rep_of_root].
      simplify_eq. done.
    + rewrite Hat in Hx.
      destruct (decide (x = a)) as [->|]; [|by eapply rep_of_step].
      simplify_eq.
      assert (y = b) as -> by (eapply rep_of_root_eq; done). done.
  - induction H as [x Hx|k x b y Hx Hne H IH].
    + apply rep_of_root. rewrite Hat. destruct (decide (x = a)) as [->|]; [|done].
      f_equal. by eapply rep_of_root_eq.
    + destruct (decide (x = a)) as [->|Hxa].
      * assert (y = r) as ->.
        { eapply rep_of_fun; [|done]. eapply rep_of_step; [done|by eexists]. }
        eapply rep_of_step; [rewrite Hat, decide_True by done; done|].
        apply rep_of_root. rewrite Hat. by destruct (decide _).
      * eapply rep_of_step; [|done]. by rewrite Hat, decide_False.
Qed.

(** Linking the representative [b] below the representative [g] moves
    the component of [b] to [g] and leaves every other component. *)
Lemma rep_of_link p g b x y :
  at_ p g = Some g → at_ p b = Some b → g ≠ b →
  rep_of (<[Z.to_nat b := g]> p) x y ↔
    (rep_of p x y ∧ y ≠ b) ∨ (rep_of p x b ∧ y = g).
Proof.
  intros Hg Hb Hne.
  pose proof (at_Some_range _ _ _ Hb) as Hbr.
  assert (∀ i, at_ (<[Z.to_nat b := g]> p) i = if decide (i = b) then Some g else at_ p i)
    as Hat by (intros; by apply at_insert).
  split.
  - intros [k H]. remember (<[Z.to_nat b := g]> p) as q eqn:Hq.
    induction H as [x Hx|k x c y Hx Hxc H IH]; subst q.
    + rewrite Hat in Hx. destruct (decide (x = b)) as [->|]; [congruence|].
      left. split; [by apply rep_of_root|done].
    + rewrite Hat in Hx.
      destruct (decide (x = b)) as [->|].
      * simplify_eq. right. split; [by apply rep_of_root|].
        destruct IH as [[IH _]|[IH _]].
        -- by eapply rep_of_root_eq.
        -- apply (rep_of_root_eq _ _ _ Hg) in IH. congruence.
      * destruct IH as [[IH ?]|[IH ?]]; [left|right]; (split; [by eapply rep_of_step|done]).
  - intros [[[k H] Hy]|[[k H] ->]].
    + induction H as [x Hx|k x c y Hx Hxc H IH].
      * apply rep_of_root. by rewrite Hat, decide_False.
      * eapply rep_of_step; [|by apply IH].
        rewrite Hat, decide_False; [done|]. intros ->. congruence.
    + remember b as t eqn:Ht in H.
      induction H as [x Hx|k x c y Hx Hxc H IH]; subst.
      * eapply rep_of_step; [by rewrite Hat, decide_True|].
        apply rep_of_root. by rewrite Hat, decide_False.
      * eapply rep_of_step; [|by apply IH].
        rewrite Hat, decide_False; [done|]. intros ->. congruence.
Qed.
End link_updates.

(** ** [find] *)

Lemma bind_Ret {A B : Type} (x : A) (f : A → outcome B) : Ret x ≫= f = f x.
Proof. reflexivity. Qed.

Lemma find_S fuel a s :
  find (S fuel) a s =
    ra ← vread (repr s) a;
    if bool_decide (ra = a) then Ret (a, s)
    else
      '(r, s1) ← find fuel ra s;
      repr1 ← vwrite (repr s1) a r;
      let s2 := set_repr s1 repr1 in
      ra' ← vread (repr s2) a;
      Ret (ra', s2).
Proof. reflexivity. Qed.

Lemma set_repr_id s : set_repr s (repr s) = s.
Proof. by destruct s. Qed.

(** [find] on a walk of [k] steps: with more than [k] units of fuel it
    returns the representative, keeps every representative, and leaves
    every node of the walk pointing at the representative. *)
Lemma find_reaches s k a r :
  reaches (repr s) k a r →
  ∀ fuel, (k < fuel)%nat →
  ∃ p', find fuel a s = Ret (r, set_repr s p') ∧
    length p' = length (repr s) ∧
    (∀ x y, rep_of p' x y ↔ rep_of (repr s) x y) ∧
    (∀ x, on_path (repr s) a x → at_ p' x = Some r) ∧
    (∀ x, ¬ on_path (repr s) a x → at_ p' x = at_ (repr s) x).
Proof.
  induction 1 as [a Ha|k a b r Ha Hne H IH]; intros [|fuel] Hfuel; try lia.
  - exists (repr s). rewrite find_S, (vread_Some _ _ _ Ha), bind_Ret.
    rewrite bool_decide_eq_true_2, set_repr_id by done.
    split_and!; try done.
    intros x Hx. inversion Hx; simplify_eq. done.
  - destruct (IH fuel ltac:(lia)) as (p1 & Hfind & Hlen & Hrep & Hpath & Hoff).
    pose proof (at_Some_range _ _ _ Ha) as Hrange.
    assert (rep_of p1 a r) as Har.
    { apply Hrep. eapply rep_of_step; [done|by eexists]. }
    destruct (at_in_range p1 a ltac:(lia)) as [o Ho].
    exists (<[Z.to_nat a := r]> p1).
    rewrite find_S, (vread_Some _ _ _ Ha), bind_Ret.
    rewrite bool_decide_eq_false_2 by done.
    rewrite Hfind, bind_Ret. simpl repr at 1.
    rewrite (vwrite_Some _ _ _ _ Ho), bind_Ret. simpl.
    rewrite (vread_Some _ _ r) by (apply at_insert_eq; lia).
    split_and!.
    + done.
    + by rewrite length_insert.
    + intros x y. rewrite rep_of_redirect by done. apply Hrep.
    + intros x Hx. rewrite at_insert by lia. destruct (decide (x = a)); [done|].
      apply Hpath. inversion Hx; simplify_eq. done.
    + intros x Hx. rewrite at_insert by lia.
      destruct (decide (x = a)) as [->|]; [destruct Hx; constructor|].
      apply Hoff. intros Hb. apply Hx. by econstructor.
Qed.

(** Whatever [find] returns is the representative, found within the fuel. *)
Lemma find_Ret_reaches fuel a s r s' :
  find fuel a s = Ret (r, s') → ∃ k, (k < fuel)%nat ∧ reaches (repr s) k a r.
Proof.
  revert a r s'. induction fuel as [|fuel IH]; intros a r s' Hfind; [done|].
  rewrite find_S in Hfind.
  destruct (at_ (repr s) a) as [ra|] eqn:Ha;
    [rewrite (vread_Some _ _ _ Ha), bind_Ret in Hfind
    |by rewrite (vread_None _ _ Ha) in Hfind].
  case_bool_decide as Hra.
  - simplify_eq. exists 0%nat. split; [lia|by constructor].
  - destruct (find fuel ra s) as [[r1 s1]| | |] eqn:Hrec; try done.
    destruct (IH _ _ _ Hrec) as (k & Hk & Hreach).
    assert (reaches (repr s) (S k) a r1) as Hstep by (econstructor; eauto).
    destruct (find_reaches _ _ _ _ Hstep (S fuel) ltac:(lia)) as (p' & Hf & _).
    rewrite find_S, (vread_Some _ _ _ Ha), bind_Ret, bool_decide_eq_false_2, Hrec in Hf by done.
    rewrite Hf in Hfind. simplify_eq.
    exists (S k). split; [lia|done].
Qed.

(** ** Counting and summing over lists *)

Section counting.
Context {A : Type}.
Implicit Types (l : list A) (x : A).

Lemma filter_or_length (P Q R : A → Prop)
    `{!∀ x, Decision (P x)} `{!∀ x, Decision (Q x)} `{!∀ x, Decision (R x)} l :
  (∀ x, x ∈ l → R x ↔ P x ∨ Q x) →
  (∀ x, x ∈ l → P x → Q x → False) →
  length (filter R l) = (length (filter P l) + length (filter Q l))%nat.
Proof.
  induction l as [|x l IH]; intros Hiff Hdis; [done|].
  rewrite !filter_cons.
  pose proof (Hiff x ltac:(left)) as Hx. pose proof (Hdis x ltac:(left)) as Hd.
  assert (length (filter R l) = (length (filter P l) + length (filter Q l))%nat) as IH'.
  { apply IH; intros y Hy; [apply Hiff|apply Hdis]; by right. }
  destruct (decide (R x)), (decide (P x)), (decide (Q x)); simpl; try lia; tauto.
Qed.

Lemma filter_eq_length `{!EqDecision A} l x :
  NoDup l → x ∈ l → length (filter (λ y, y = x) l) = 1%nat.
Proof.
  induction 1 as [|y l Hy Hnd IH]; [by intros ?%elem_of_nil|].
  rewrite filter_cons. intros [->|Hx]%elem_of_cons.
  - rewrite decide_True by done. simpl. f_equal.
    clear IH Hnd. induction l as [|z l IH]; [done|].
    apply not_elem_of_cons in Hy as [Hz Hy].
    rewrite filter_cons, decide_False by done. by apply IH.
  - rewrite decide_False by (by intros ->). by apply IH.
Qed.
End counting.

Lemma sumZ_cons x l : sumZ (x :: l) = x + sumZ l.
Proof. reflexivity. Qed.

Lemma sumZ_app l k : sumZ (l ++ k) = sumZ l + sumZ k.
Proof. induction l as [|x l IH]; simpl; [done|]. rewrite IH. lia. Qed.

Lemma sumZ_insert (l : list Z) i v w :
  at_ l i = Some v → sumZ (<[Z.to_nat i := w]> l) = sumZ l - v + w.
Proof.
  unfold at_. case_bool_decide; [|done]. generalize (Z.to_nat i) as n. clear.
  induction l as [|x l IH]; intros [|n] Hn; simplify_eq/=; [lia|].
  rewrite (IH _ Hn). lia.
Qed.

Lemma sumZ_replicate n : sumZ (replicate n 1) = Z.of_nat n.
Proof. induction n as [|n IH]; [done|]. simpl replicate. simpl sumZ. rewrite IH. lia. Qed.

(** A vector is its own table of contents. *)
Lemma list_as_table {A : Type} (d : A) (l : list A) :
  (λ i, default d (at_ l i)) <$> seqZ 0 (Z.of_nat (length l)) = l.
Proof.
  apply list_eq. intros n. rewrite list_lookup_fmap.
  destruct (decide (n < length l)%nat) as [Hn|Hn].
  - rewrite lookup_seqZ_lt by lia. simpl. unfold at_.
    rewrite bool_decide_eq_true_2 by lia. rewrite Z.add_0_l, Nat2Z.id.
    destruct (lookup_lt_is_Some_2 l n Hn) as [x ->]. done.
  - rewrite lookup_seqZ_ge by lia. simpl. symmetry. apply lookup_ge_None. lia.
Qed.

Lemma sumZ_filter_zero {A : Type} (f : A → Z) (P : A → Prop) `{!∀ x, Decision (P x)} (l : list A) :
  (∀ x, x ∈ l → ¬ P x → f x = 0) →
  sumZ (f <$> filter P l) = sumZ (f <$> l).
Proof.
  induction l as [|x l IH]; intros Hz; [done|].
  rewrite filter_cons. specialize (IH ltac:(intros y Hy; apply Hz; by right)).
  destruct (decide (P x)) as [HP|HP]; rewrite !fmap_cons, ?sumZ_cons, IH; [done|].
  rewrite (Hz x) by (done || left). lia.
Qed.

Lemma length_filter_fmap {A B : Type} (f : A → B) (P : B → Prop) `{!∀ y, Decision (P y)} (l : list A) :
  length (filter P (f <$> l)) = length (filter (λ x, P (f x)) l).
Proof.
  induction l as [|x l IH]; [done|].
  rewrite fmap_cons, !filter_cons. destruct (decide (P (f x))); simpl; by rewrite IH.
Qed.

Lemma list_min_spec (l : list Z) lo :
  lo ∈ l → (∀ x, x ∈ l → lo ≤ x) → list_min l = Some lo.
Proof.
  destruct l as [|x l]; [by intros ?%elem_of_nil|]. simpl. intros Hin Hle. f_equal.
  assert (∀ k acc, (∀ y, y ∈ acc :: k → lo ≤ y) → lo ∈ acc :: k → foldl Z.min acc k = lo) as Hgen.
  { clear. induction k as [|y k IH]; intros acc Hle Hin; simpl.
    - apply list_elem_of_singleton in Hin. done.
    - apply IH.
      + intros z [->|Hz]%elem_of_cons; [|apply Hle; by do 2 right].
        pose proof (Hle acc ltac:(left)). pose proof (Hle y ltac:(right; left)). lia.
      + pose proof (Hle acc ltac:(left)). pose proof (Hle y ltac:(right; left)).
        apply elem_of_cons.
        apply elem_of_cons in Hin as [->|[->|Hin]%elem_of_cons];
          [left; lia|left; lia|by right]. }
  by apply Hgen.
Qed.

Lemma list_max_spec (l : list Z) hi :
  hi ∈ l → (∀ x, x ∈ l → x ≤ hi) → list_max l = Some hi.
Proof.
  destruct l as [|x l]; [by intros ?%elem_of_nil|]. simpl. intros Hin Hle. f_equal.
  assert (∀ k acc, (∀ y, y ∈ acc :: k → y ≤ hi) → hi ∈ acc :: k → foldl Z.max acc k = hi) as Hgen.
  { clear. induction k as [|y k IH]; intros acc Hle Hin; simpl.
    - apply list_elem_of_singleton in Hin. done.
    - apply IH.
      + intros z [->|Hz]%elem_of_cons; [|apply Hle; by do 2 right].
        pose proof (Hle acc ltac:(left)). pose proof (Hle y ltac:(right; left)). lia.
      + pose proof (Hle acc ltac:(left)). pose proof (Hle y ltac:(right; left)).
        apply elem_of_cons.
        apply elem_of_cons in Hin as [->|[->|Hin]%elem_of_cons];
          [left; lia|left; lia|by right]. }
  by apply Hgen.
Qed.

(** ** Representatives as [find] reports them *)

Lemma find_rep_rep_of s a r : find_rep s a = Some r ↔ rep_of (repr s) a r.
Proof.
  unfold find_rep. split.
  - destruct (find (length (repr s)) a s) as [[r' s']| | |] eqn:Hfind; try done.
    intros [= ->]. destruct (find_Ret_reaches _ _ _ _ _ Hfind) as (k & _ & H). by exists k.
  - intros [k H]. pose proof (reaches_bound _ _ _ _ H) as Hk.
    destruct (find_reaches _ _ _ _ H _ Hk) as (p' & -> & _). done.
Qed.

Lemma elem_of_elements s i : i ∈ elements s ↔ 0 ≤ i < Z.of_nat (length (repr s)).
Proof. unfold elements. rewrite elem_of_seqZ. lia. Qed.

Lemma elem_of_members s i r : i ∈ members s r ↔ rep_of (repr s) i r.
Proof.
  unfold members. rewrite list_elem_of_filter, find_rep_rep_of, elem_of_elements.
  split; [tauto|]. intros H. split; [done|]. by eapply rep_of_range.
Qed.

Lemma NoDup_members s r : NoDup (members s r).
Proof. apply NoDup_filter, NoDup_seqZ. Qed.

Lemma members_ext s s' r :
  length (repr s') = length (repr s) →
  (∀ x, rep_of (repr s') x r ↔ rep_of (repr s) x r) →
  members s' r = members s r.
Proof.
  intros Hlen Hrep. unfold members, elements. rewrite Hlen.
  apply list_filter_iff. intros x. by rewrite !find_rep_rep_of.
Qed.

Lemma is_rep_at p r : rep_of p r r ↔ at_ p r = Some r.
Proof. split; [apply rep_of_fixed|apply rep_of_root]. Qed.

Lemma elem_of_representatives s r : r ∈ representatives s ↔ rep_of (repr s) r r.
Proof.
  unfold representatives. rewrite list_elem_of_filter, elem_of_elements, is_rep_at.
  split; [tauto|]. intros H. split; [done|]. by eapply at_Some_range.
Qed.

(** What a returning [find] has done, whatever the fuel. *)
Lemma find_Ret_inv fuel a s r s' :
  find fuel a s = Ret (r, s') →
  ∃ p', s' = set_repr s p' ∧
    rep_of (repr s) a r ∧
    length p' = length (repr s) ∧
    (∀ x y, rep_of p' x y ↔ rep_of (repr s) x y) ∧
    (∀ x, on_path (repr s) a x → at_ p' x = Some r) ∧
    (∀ x, ¬ on_path (repr s) a x → at_ p' x = at_ (repr s) x).
Proof.
  intros Hfind. destruct (find_Ret_reaches _ _ _ _ _ Hfind) as (k & Hk & H).
  destruct (find_reaches _ _ _ _ H _ Hk) as (p' & Hfind' & Hrest).
  rewrite Hfind in Hfind'. simplify_eq. exists p'. split; [done|]. split; [by exists k|done].
Qed.

(** With the number of elements as fuel, [find] returns on every element
    that has a representative. *)
Lemma find_rep_of fuel a s r :
  rep_of (repr s) a r → (length (repr s) ≤ fuel)%nat →
  ∃ p', find fuel a s = Ret (r, set_repr s p') ∧
    length p' = length (repr s) ∧
    (∀ x y, rep_of p' x y ↔ rep_of (repr s) x y) ∧
    (∀ x, on_path (repr s) a x → at_ p' x = Some r) ∧
    (∀ x, ¬ on_path (repr s) a x → at_ p' x = at_ (repr s) x).
Proof.
  intros [k H] Hfuel. pose proof (reaches_bound _ _ _ _ H).
  apply (find_reaches _ _ _ _ H). lia.
Qed.

(** ** The invariant is kept *)

Lemma wf_set_repr s p' :
  wf s → length p' = length (repr s) →
  (∀ x y, rep_of p' x y ↔ rep_of (repr s) x y) →
  wf (set_repr s p').
Proof.
  intros [] Hlen Hrep.
  assert (∀ r, members (set_repr s p') r = members s r) as Hmem.
  { intros r. apply members_ext; [done|]. intros x. apply Hrep. }
  constructor; simpl; rewrite ?Hlen; try done.
  - intros a Ha. destruct (wf_rep0 a Ha) as [r Hr]. exists r. by apply Hrep.
  - intros r Hr%Hrep. rewrite Hmem. by apply wf_size0.
  - intros i Hi Hr. apply wf_absorbed0; [done|]. by rewrite <-Hrep.
  - intros r Hr%Hrep. destruct (wf_info0 r Hr) as (lo & hi & ? & ? & ? & Hb).
    exists lo, hi. split_and!; [done|by apply Hrep|by apply Hrep|].
    intros i Hi%Hrep. by apply Hb.
Qed.

Lemma wf_find fuel a s r s' : wf s → find fuel a s = Ret (r, s') → wf s'.
Proof.
  intros Hwf (p' & -> & _ & Hlen & Hrep & _)%find_Ret_inv. by apply wf_set_repr.
Qed.

(** ** The constructor *)

Lemma ctor_loop_eq fuel n i s :
  (Z.to_nat (n - i) ≤ fuel)%nat →
  ctor_loop fuel n i s =
    {| component_size := component_size s ++ replicate (Z.to_nat (n - i)) 1;
       repr := repr s ++ seqZ i (n - i);
       additionalInfo := additionalInfo s ++ ((λ j, (j, j)) <$> seqZ i (n - i)) |}.
Proof.
  revert i s. induction fuel as [|fuel IH]; intros i s Hfuel.
  - simpl. replace (Z.to_nat (n - i)) with 0%nat by lia.
    rewrite seqZ_nil by lia. simpl. rewrite !app_nil_r. by destruct s.
  - simpl. case_bool_decide as Hi.
    + rewrite IH by lia. simpl.
      rewrite (seqZ_cons i (n - i)) by lia.
      replace (Z.to_nat (n - i)) with (S (Z.to_nat (n - (i + 1)))) by lia.
      replace (Z.pred (n - i)) with (n - (i + 1)) by lia.
      replace (Z.succ i) with (i + 1) by lia.
      rewrite fmap_cons. simpl. by rewrite <-!app_assoc.
    + replace (Z.to_nat (n - i)) with 0%nat by lia.
      rewrite seqZ_nil by lia. simpl. rewrite !app_nil_r. by destruct s.
Qed.

Lemma union_find_ctor_eq n :
  union_find_ctor n =
    Ret {| component_size := replicate (Z.to_nat n) 1;
           repr := seqZ 0 n;
           additionalInfo := (λ j, (j, j)) <$> seqZ 0 n |}.
Proof.
  unfold union_find_ctor. rewrite ctor_loop_eq by lia. simpl.
  by rewrite Z.sub_0_r.
Qed.

Lemma at_seqZ n i : 0 ≤ i < n → at_ (seqZ 0 n) i = Some i.
Proof.
  intros Hi. unfold at_. rewrite bool_decide_eq_true_2 by lia.
  rewrite lookup_seqZ_lt by lia. f_equal. lia.
Qed.

Lemma rep_of_seqZ n a r : rep_of (seqZ 0 n) a r ↔ 0 ≤ a < n ∧ r = a.
Proof.
  split.
  - intros H. pose proof (rep_of_range _ _ _ H) as Ha. rewrite length_seqZ in Ha.
    assert (0 ≤ a < n) as Ha' by lia. split; [done|].
    eapply rep_of_root_eq; [|done]. by apply at_seqZ.
  - intros [Ha ->]. apply rep_of_root. by apply at_seqZ.
Qed.

Lemma wf_ctor n s : is_int n → union_find_ctor n = Ret s → wf s.
Proof.
  intros [_ Hn]. rewrite union_find_ctor_eq. intros [= <-].
  assert (∀ r, 0 ≤ r < n →
    length (members {| component_size := replicate (Z.to_nat n) 1; repr := seqZ 0 n;
                       additionalInfo := (λ j, (j, j)) <$> seqZ 0 n |} r) = 1%nat) as Hmem.
  { intros r Hr. unfold members, elements. simpl.
    rewrite <-(filter_eq_length (seqZ 0 (Z.of_nat (length (seqZ 0 n)))) r).
    - f_equal. apply list_filter_iff. intros x.
      rewrite find_rep_rep_of. simpl. rewrite rep_of_seqZ. split; [by intros [_ ->]|].
      intros ->. done.
    - apply NoDup_seqZ.
    - rewrite elem_of_seqZ, length_seqZ. lia. }
  constructor; simpl; rewrite ?length_seqZ, ?length_replicate, ?length_fmap, ?length_seqZ.
  - done.
  - done.
  - unfold INT_MAX in *. lia.
  - intros a Ha. exists a. apply rep_of_seqZ. lia.
  - intros r [Hr _]%rep_of_seqZ. rewrite Hmem by done.
    unfold at_. rewrite bool_decide_eq_true_2 by lia.
    rewrite lookup_replicate_2 by lia. done.
  - intros i Hi []. apply rep_of_seqZ. lia.
  - intros r [Hr _]%rep_of_seqZ. exists r, r. split_and!.
    + unfold at_. rewrite bool_decide_eq_true_2 by lia.
      rewrite list_lookup_fmap, lookup_seqZ_lt by lia. simpl. do 2 f_equal; lia.
    + by apply rep_of_seqZ.
    + by apply rep_of_seqZ.
    + intros i [_ ->]%rep_of_seqZ. lia.
  - rewrite sumZ_replicate. done.
Qed.

(** ** [merge] *)

Lemma merge_same fuel x y s r s1 s2 :
  find fuel x s = Ret (r, s1) → find fuel y s1 = Ret (r, s2) →
  merge fuel x y s = Ret s2.
Proof.
  intros H1 H2. unfold merge. rewrite H1, bind_Ret, H2, bind_Ret.
  by rewrite bool_decide_eq_true_2.
Qed.

(** The structure [merge] leaves when the two representatives differ:
    [lose] is linked below [win]. *)
Lemma merge_link fuel x y s rx s1 ry s2 cx cy win lose cw cl iw il :
  find fuel x s = Ret (rx, s1) → find fuel y s1 = Ret (ry, s2) →
  rx ≠ ry →
  at_ (component_size s2) rx = Some cx →
  at_ (component_size s2) ry = Some cy →
  (if bool_decide (cy > cx) then (rx, ry) else (ry, rx)) = (lose, win) →
  at_ (repr s2) lose = Some lose →
  at_ (component_size s2) win = Some cw →
  at_ (component_size s2) lose = Some cl →
  is_int (cw + cl) →
  at_ (additionalInfo s2) win = Some iw →
  at_ (additionalInfo s2) lose = Some il →
  merge fuel x y s = Ret (link s2 win lose cw cl iw il).
Proof.
  intros H1 H2 Hne Hcx Hcy Hswap Hlose Hcw Hcl Hint Hiw Hil.
  assert (win ≠ lose) as Hwl by (case_bool_decide; simplify_eq; done).
  pose proof (at_Some_range _ _ _ Hcw) as Hwr.
  pose proof (at_Some_range _ _ _ Hcl) as Hlr.
  pose proof (at_Some_range _ _ _ Hiw) as Hwr'.
  unfold merge. rewrite H1, bind_Ret, H2, bind_Ret.
  rewrite bool_decide_eq_false_2 by done.
  rewrite (vread_Some _ _ _ Hcy), bind_Ret, (vread_Some _ _ _ Hcx), bind_Ret.
  rewrite Hswap.
  rewrite (vwrite_Some _ _ _ _ Hlose), bind_Ret. simpl.
  rewrite (vread_Some _ _ _ Hcw), bind_Ret, (vread_Some _ _ _ Hcl), bind_Ret.
  unfold int_add. rewrite bool_decide_eq_true_2, bind_Ret by done.
  rewrite (vwrite_Some _ _ _ _ Hcw), bind_Ret.
  rewrite (vwrite_Some _ lose _ cl), bind_Ret by (rewrite at_insert_ne; [done|lia|lia]).
  rewrite (vread_Some _ _ _ Hiw), bind_Ret, (vread_Some _ _ _ Hil), bind_Ret.
  rewrite (vwrite_Some _ _ _ _ Hiw), bind_Ret.
  rewrite (vread_Some _ win (Z.min iw.1 il.1, iw.2)), bind_Ret by (apply at_insert_eq; lia).
  rewrite (vread_Some _ lose il), bind_Ret by (rewrite at_insert_ne; [done|lia|lia]).
  rewrite (vwrite_Some _ win _ (Z.min iw.1 il.1, iw.2)), bind_Ret by (apply at_insert_eq; lia).
  unfold link. simpl. by rewrite list_insert_insert_eq.
Qed.

Lemma length_elements s : length (elements s) = length (repr s).
Proof. unfold elements. rewrite length_seqZ. lia. Qed.

(** Two different components together have at most [n] elements. *)
Lemma members_disjoint_bound s r1 r2 :
  r1 ≠ r2 → (length (members s r1) + length (members s r2) ≤ length (repr s))%nat.
Proof.
  intros Hne. unfold members.
  rewrite <-(filter_or_length _ _ (λ i, find_rep s i = Some r1 ∨ find_rep s i = Some r2)).
  - rewrite <-length_elements. apply length_filter.
  - done.
  - intros x _ H1 H2. congruence.
Qed.

Lemma members_rep_nonempty s r : rep_of (repr s) r r → (0 < length (members s r))%nat.
Proof.
  intros Hr%elem_of_members. destruct (members s r); [by apply elem_of_nil in Hr|simpl; lia].
Qed.

Section link.
Context (s : union_find) (win lose cw cl : Z) (iw il : Z * Z).
Context (Hwf : wf s).
Context (Hwin : rep_of (repr s) win win) (Hlose : rep_of (repr s) lose lose).
Context (Hne : win ≠ lose).
Context (Hcw : at_ (component_size s) win = Some cw).
Context (Hcl : at_ (component_size s) lose = Some cl).
Context (Hiw : at_ (additionalInfo s) win = Some iw).
Context (Hil : at_ (additionalInfo s) lose = Some il).


Lemma linked_rep_of x y :
  rep_of (repr (link s win lose cw cl iw il)) x y ↔
    (rep_of (repr s) x y ∧ y ≠ lose) ∨ (rep_of (repr s) x lose ∧ y = win).
Proof. apply rep_of_link; [by apply is_rep_at|by apply is_rep_at|done]. Qed.

Lemma linked_is_rep r : rep_of (repr (link s win lose cw cl iw il)) r r ↔ rep_of (repr s) r r ∧ r ≠ lose.
Proof.
  rewrite linked_rep_of. split; [|by left].
  intros [?|[H ->]]; [done|].
  destruct Hne. by eapply rep_of_fun.
Qed.

Lemma linked_sizes : cw = Z.of_nat (length (members s win)) ∧ cl = Z.of_nat (length (members s lose)).
Proof.
  pose proof (wf_size _ Hwf _ Hwin). pose proof (wf_size _ Hwf _ Hlose).
  split; congruence.
Qed.

Lemma linked_members_win :
  length (members (link s win lose cw cl iw il) win) = (length (members s win) + length (members s lose))%nat.
Proof.
  unfold members, elements. simpl. rewrite length_insert.
  apply filter_or_length.
  - intros x _. rewrite !find_rep_rep_of, linked_rep_of.
    split; [intros [[? _]|[? _]]|intros [?|?]]; [by left|by right|by left|by right].
  - intros x _. congruence.
Qed.

Lemma linked_members_other r :
  r ≠ win → r ≠ lose → members (link s win lose cw cl iw il) r = members s r.
Proof.
  intros Hw Hl. apply members_ext; [simpl; by rewrite length_insert|].
  intros x. rewrite linked_rep_of.
  split; [intros [[? _]|[_ ?]]; done|by left].
Qed.

Lemma linked_range : 0 ≤ win < Z.of_nat (length (repr s)) ∧ 0 ≤ lose < Z.of_nat (length (repr s)).
Proof. split; by eapply rep_of_range. Qed.

Lemma linked_size_at i :
  at_ (component_size (link s win lose cw cl iw il)) i =
    if decide (i = lose) then Some 0
    else if decide (i = win) then Some (cw + cl)
    else at_ (component_size s) i.
Proof.
  destruct linked_range as [Hw Hl]. pose proof (wf_size_len _ Hwf) as Hlen. simpl.
  rewrite at_insert by (rewrite length_insert; lia).
  destruct (decide (i = lose)); [done|]. rewrite at_insert by lia. done.
Qed.

Lemma linked_info_at i :
  at_ (additionalInfo (link s win lose cw cl iw il)) i =
    if decide (i = win) then Some (Z.min iw.1 il.1, Z.max iw.2 il.2)
    else at_ (additionalInfo s) i.
Proof.
  destruct linked_range as [Hw Hl]. pose proof (wf_info_len _ Hwf) as Hlen. simpl.
  rewrite at_insert by lia. done.
Qed.

Lemma wf_linked : wf (link s win lose cw cl iw il).
Proof.
  destruct linked_range as [Hw Hl]. destruct linked_sizes as [Ecw Ecl].
  constructor.
  - simpl. rewrite !length_insert. apply Hwf.
  - simpl. rewrite !length_insert. apply Hwf.
  - simpl. rewrite !length_insert. apply Hwf.
  - simpl. rewrite length_insert. intros a Ha.
    destruct (wf_rep _ Hwf a Ha) as [r Hr].
    destruct (decide (r = lose)) as [->|Hrl].
    + exists win. apply linked_rep_of. by right.
    + exists r. apply linked_rep_of. by left.
  - intros r [Hr Hrl]%linked_is_rep. rewrite linked_size_at, decide_False by done.
    destruct (decide (r = win)) as [->|Hrw].
    + rewrite linked_members_win, Ecw, Ecl. f_equal. lia.
    + rewrite linked_members_other by done. by apply wf_size.
  - simpl length. rewrite length_insert. intros i Hi Hr. rewrite linked_size_at.
    destruct (decide (i = lose)); [done|].
    rewrite linked_is_rep in Hr.
    rewrite decide_False by (intros ->; tauto).
    apply wf_absorbed; [done|done|tauto].
  - intros r [Hr Hrl]%linked_is_rep. rewrite linked_info_at.
    destruct (decide (r = win)) as [->|Hrw].
    + destruct (wf_info _ Hwf _ Hwin) as (lo1 & hi1 & Ew & Hlo1 & Hhi1 & Hb1).
      destruct (wf_info _ Hwf _ Hlose) as (lo2 & hi2 & El & Hlo2 & Hhi2 & Hb2).
      assert (iw = (lo1, hi1)) as Eiw by congruence.
      assert (il = (lo2, hi2)) as Eil by congruence.
      rewrite Eiw, Eil. simpl.
      eexists _, _. split; [done|]. split_and!.
      * apply linked_rep_of. destruct (Z.min_spec lo1 lo2) as [[_ ->]|[_ ->]]; [by left|by right].
      * apply linked_rep_of. destruct (Z.max_spec hi1 hi2) as [[_ ->]|[_ ->]]; [by right|by left].
      * intros i [[Hi _]|[Hi _]]%linked_rep_of.
        -- specialize (Hb1 i Hi). lia.
        -- specialize (Hb2 i Hi). lia.
    + destruct (wf_info _ Hwf _ Hr) as (lo & hi & E & Hlo & Hhi & Hb).
      exists lo, hi. split_and!; [done| | |].
      * apply linked_rep_of. by left.
      * apply linked_rep_of. by left.
      * intros i [[Hi _]|[_ ?]]%linked_rep_of; [by apply Hb|done].
  - simpl. rewrite (sumZ_insert _ _ cl) by (rewrite at_insert_ne; [done|lia|done]).
    rewrite (sumZ_insert _ _ cw) by done.
    rewrite length_insert, (wf_sum _ Hwf). lia.
Qed.

Lemma linked_no_overflow : is_int (cw + cl).
Proof.
  destruct linked_sizes as [Ecw Ecl]. rewrite Ecw, Ecl.
  pose proof (members_disjoint_bound s win lose Hne).
  pose proof (wf_int _ Hwf). unfold is_int, INT_MIN, INT_MAX in *. lia.
Qed.
End link.

(** [merge], once its two [find] calls have returned. *)
Lemma merge_core fuel x y s rx s1 ry s2 :
  wf s →
  find fuel x s = Ret (rx, s1) → find fuel y s1 = Ret (ry, s2) →
  ∃ s', merge fuel x y s = Ret s' ∧ wf s' ∧ merge_post s rx ry s' ∧
    rep_of (repr s) x rx ∧ rep_of (repr s) y ry.
Proof.
  intros Hwf H1 H2.
  destruct (find_Ret_inv _ _ _ _ _ H1) as (p1 & E1 & Hx & Hlen1 & Hrep1 & _).
  pose proof (wf_find _ _ _ _ _ Hwf H1) as Hwf1.
  destruct (find_Ret_inv _ _ _ _ _ H2) as (p2 & E2 & Hy & Hlen2 & Hrep2 & _).
  pose proof (wf_find _ _ _ _ _ Hwf1 H2) as Hwf2.
  assert (component_size s2 = component_size s) as Ecs by (by subst).
  assert (additionalInfo s2 = additionalInfo s) as Einfo by (by subst).
  assert (length (repr s2) = length (repr s)) as Hlen by (subst; simpl in *; congruence).
  assert (∀ a r, rep_of (repr s2) a r ↔ rep_of (repr s) a r) as Hrep.
  { intros a r. subst. simpl in *. by rewrite Hrep2, Hrep1. }
  assert (rep_of (repr s) y ry) as Hy' by (subst; simpl in *; by apply Hrep1).
  destruct (decide (rx = ry)) as [<-|Hne].
  - exists s2. split; [by eapply merge_same|]. split; [done|]. split; [|done].
    unfold merge_post. rewrite decide_True by done. done.
  - assert (rep_of (repr s2) rx rx) as Hrx by (apply Hrep; by eapply rep_of_idem).
    assert (rep_of (repr s2) ry ry) as Hry by (apply Hrep; by eapply rep_of_idem).
    pose proof (wf_size _ Hwf2 _ Hrx) as Hcx. pose proof (wf_size _ Hwf2 _ Hry) as Hcy.
    destruct (wf_info _ Hwf2 _ Hrx) as (lox & hix & Hix & _).
    destruct (wf_info _ Hwf2 _ Hry) as (loy & hiy & Hiy & _).
    set (cx := Z.of_nat (length (members s2 rx))) in *.
    set (cy := Z.of_nat (length (members s2 ry))) in *.
    destruct (bool_decide (cy > cx)) eqn:Hswap.
    + (* the component of [y] is larger: [rx] is linked below [ry] *)
      assert (is_int (cy + cx)) as Hint by (by eapply (linked_no_overflow s2 ry rx)).
      exists (link s2 ry rx cy cx (loy, hiy) (lox, hix)). split_and!; [| |split|done|done].
      * eapply merge_link; try done; [by rewrite Hswap|by apply is_rep_at].
      * by apply wf_linked.
      * simpl. by rewrite length_insert.
      * rewrite decide_False by done.
        exists cx, cy, (lox, hix), (loy, hiy), ry, rx. rewrite <-Ecs, <-Einfo, Hswap.
        split_and!; try done.
        -- simpl. by rewrite Z.add_comm.
        -- simpl. by rewrite Z.min_comm, Z.max_comm.
        -- simpl. apply at_insert_eq. by eapply rep_of_range.
        -- simpl. rewrite at_insert_ne; [by apply is_rep_at| |done].
           apply (rep_of_range _ _ _ Hrx).
        -- intros a r. rewrite (linked_rep_of s2 ry rx) by done.
           by rewrite !Hrep.
    + assert (is_int (cx + cy)) as Hint by (by eapply (linked_no_overflow s2 rx ry)).
      exists (link s2 rx ry cx cy (lox, hix) (loy, hiy)). split_and!; [| |split|done|done].
      * eapply merge_link; try done; [by rewrite Hswap|by apply is_rep_at].
      * by apply wf_linked.
      * simpl. by rewrite length_insert.
      * rewrite decide_False by done.
        exists cx, cy, (lox, hix), (loy, hiy), rx, ry. rewrite <-Ecs, <-Einfo, Hswap.
        split_and!; try done.
        -- simpl. apply at_insert_eq. by eapply rep_of_range.
        -- simpl. rewrite at_insert_ne; [by apply is_rep_at| |done].
           apply (rep_of_range _ _ _ Hry).
        -- intros a r. rewrite (linked_rep_of s2 rx ry) by done.
           by rewrite !Hrep.
Qed.

(** A returning [merge] has done what [merge_post] says. *)
Lemma merge_Ret_inv fuel x y s s' :
  wf s → merge fuel x y s = Ret s' →
  ∃ rx ry, rep_of (repr s) x rx ∧ rep_of (repr s) y ry ∧ wf s' ∧ merge_post s rx ry s'.
Proof.
  intros Hwf Hm.
  destruct (find fuel x s) as [[rx s1]| | |] eqn:H1;
    try (unfold merge in Hm; rewrite H1 in Hm; done).
  destruct (find fuel y s1) as [[ry s2]| | |] eqn:H2;
    try (unfold merge in Hm; rewrite H1, bind_Ret, H2 in Hm; done).
  destruct (merge_core _ _ _ _ _ _ _ _ Hwf H1 H2) as (s'' & Hm' & ? & ? & ? & ?).
  rewrite Hm in Hm'. simplify_eq. by exists rx, ry.
Qed.

(** With the number of elements as fuel, [merge] returns. *)
Lemma merge_total fuel x y s rx ry :
  wf s → rep_of (repr s) x rx → rep_of (repr s) y ry →
  (length (repr s) ≤ fuel)%nat →
  ∃ s', merge fuel x y s = Ret s' ∧ wf s' ∧ merge_post s rx ry s'.
Proof.
  intros Hwf Hx Hy Hfuel.
  destruct (find_rep_of fuel _ _ _ Hx Hfuel) as (p1 & H1 & Hlen1 & Hrep1 & _).
  assert (rep_of (repr (set_repr s p1)) y ry) as Hy1 by (by apply Hrep1).
  destruct (find_rep_of fuel _ _ _ Hy1 ltac:(simpl; lia)) as (p2 & H2 & _).
  destruct (merge_core _ _ _ _ _ _ _ _ Hwf H1 H2) as (s' & ? & ? & ? & _).
  by exists s'.
Qed.

(** ** [size] and [get] *)

Lemma size_Ret_inv fuel a s n s' :
  wf s → size fuel a s = Ret (n, s') →
  ∃ r, find fuel a s = Ret (r, s') ∧ rep_of (repr s) a r ∧
    n = Z.of_nat (length (members s r)).
Proof.
  intros Hwf Hs. unfold size in Hs.
  destruct (find fuel a s) as [[r s1]| | |] eqn:H1; try done.
  rewrite bind_Ret in Hs.
  destruct (find_Ret_inv _ _ _ _ _ H1) as (p1 & -> & Ha & _). simpl in Hs.
  rewrite (vread_Some _ _ _ (wf_size _ Hwf r ltac:(by eapply rep_of_idem))) in Hs.
  simpl in Hs. simplify_eq. by exists r.
Qed.

Lemma size_total fuel a s r :
  wf s → rep_of (repr s) a r → (length (repr s) ≤ fuel)%nat →
  ∃ s', size fuel a s = Ret (Z.of_nat (length (members s r)), s') ∧
    find fuel a s = Ret (r, s').
Proof.
  intros Hwf Ha Hfuel.
  destruct (find_rep_of fuel _ _ _ Ha Hfuel) as (p1 & H1 & _).
  exists (set_repr s p1). split; [|done]. unfold size. rewrite H1, bind_Ret. simpl.
  by rewrite (vread_Some _ _ _ (wf_size _ Hwf r ltac:(by eapply rep_of_idem))).
Qed.

Lemma get_Ret_inv fuel u v s b s' :
  get fuel u v s = Ret (b, s') →
  ∃ ru s1 rv, find fuel u s = Ret (ru, s1) ∧ find fuel v s1 = Ret (rv, s') ∧
    rep_of (repr s) u ru ∧ rep_of (repr s) v rv ∧ b = bool_decide (ru = rv).
Proof.
  intros Hg. unfold get in Hg.
  destruct (find fuel u s) as [[ru s1]| | |] eqn:H1; try done.
  rewrite bind_Ret in Hg.
  destruct (find fuel v s1) as [[rv s2]| | |] eqn:H2; try done.
  rewrite bind_Ret in Hg.
  destruct (find_Ret_inv _ _ _ _ _ H1) as (p1 & -> & Hu & _ & Hrep1 & _).
  destruct (find_Ret_inv _ _ _ _ _ H2) as (p2 & -> & Hv & _).
  exists ru, (set_repr s p1), rv.
  case_bool_decide; simplify_eq; split_and!; try done; by apply Hrep1.
Qed.

Lemma get_total fuel u v s ru rv :
  rep_of (repr s) u ru → rep_of (repr s) v rv → (length (repr s) ≤ fuel)%nat →
  ∃ s', get fuel u v s = Ret (bool_decide (ru = rv), s').
Proof.
  intros Hu Hv Hfuel.
  destruct (find_rep_of fuel _ _ _ Hu Hfuel) as (p1 & H1 & Hlen1 & Hrep1 & _).
  assert (rep_of (repr (set_repr s p1)) v rv) as Hv1 by (by apply Hrep1).
  destruct (find_rep_of fuel _ _ _ Hv1 ltac:(simpl; lia)) as (p2 & H2 & _).
  eexists. unfold get. rewrite H1, bind_Ret, H2, bind_Ret.
  by case_bool_decide.
Qed.

(** ** Every reachable structure is well formed *)

Lemma reachable_wf s : reachable s → wf s.
Proof.
  induction 1 as [n s Hn Hc|fuel a s r s' _ IH Hf|fuel a s n s' _ IH Hs
                 |fuel x y s s' _ IH Hm|fuel u v s b s' _ IH Hg].
  - by eapply wf_ctor.
  - by eapply wf_find.
  - destruct (size_Ret_inv _ _ _ _ _ IH Hs) as (r & Hf & _). by eapply wf_find.
  - by destruct (merge_Ret_inv _ _ _ _ _ IH Hm) as (? & ? & ? & ? & ? & ?).
  - destruct (get_Ret_inv _ _ _ _ _ _ Hg) as (ru & s1 & rv & H1 & H2 & _).
    eapply wf_find; [|done]. by eapply wf_find.
Qed.

(** ** [count_islands] *)

Lemma count_fold (l : list Z) (c : Z) :
  0 ≤ c → c + Z.of_nat (length l) ≤ INT_MAX →
  foldl count_step (Ret c) l = Ret (c + Z.of_nat (length (filter (λ el, el > 0) l))).
Proof.
  revert c. induction l as [|el l IH]; intros c Hc Hmax.
  - simpl. f_equal. lia.
  - simpl foldl. rewrite filter_cons. simpl in Hmax.
    destruct (decide (el > 0)) as [Hel|Hel].
    + rewrite bool_decide_eq_true_2 by done.
      unfold int_add. rewrite bool_decide_eq_true_2
        by (unfold is_int, INT_MIN, INT_MAX in *; lia).
      rewrite IH by lia. f_equal. simpl. lia.
    + rewrite bool_decide_eq_false_2 by done. rewrite IH by lia. done.
Qed.

Lemma count_islands_positive s :
  wf s →
  count_islands s = Ret (Z.of_nat (length (filter (λ el, el > 0) (component_size s)))).
Proof.
  intros Hwf. unfold count_islands. rewrite count_fold; [done|lia|].
  rewrite (wf_size_len _ Hwf). pose proof (wf_int _ Hwf). lia.
Qed.

(** An index holds a positive size exactly when it is a representative. *)
Lemma positive_iff_rep s i :
  wf s → default 0 (at_ (component_size s) i) > 0 ↔ at_ (repr s) i = Some i.
Proof.
  intros Hwf. rewrite <-is_rep_at. split.
  - intros Hpos. destruct (decide (0 ≤ i < Z.of_nat (length (repr s)))) as [Hi|Hi].
    + destruct (wf_rep _ Hwf i Hi) as [r Hr].
      destruct (decide (r = i)) as [->|Hn]; [done|].
      rewrite (wf_absorbed _ Hwf i Hi) in Hpos; [simpl in Hpos; lia|].
      intros Hi'. apply Hn. by eapply rep_of_fun.
    + rewrite at_None in Hpos; [simpl in Hpos; lia|]. by rewrite (wf_size_len _ Hwf).
  - intros Hr. rewrite (wf_size _ Hwf _ Hr). simpl.
    pose proof (members_rep_nonempty _ _ Hr). lia.
Qed.

Lemma positive_count_representatives s :
  wf s →
  length (filter (λ el, el > 0) (component_size s)) = length (representatives s).
Proof.
  intros Hwf.
  rewrite <-(list_as_table 0 (component_size s)) at 1.
  rewrite length_filter_fmap, (wf_size_len _ Hwf).
  unfold representatives, elements. f_equal.
  apply list_filter_iff. intros i. by apply positive_iff_rep.
Qed.

Lemma count_islands_representatives s :
  wf s → count_islands s = Ret (Z.of_nat (length (representatives s))).
Proof.
  intros Hwf. by rewrite count_islands_positive, positive_count_representatives.
Qed.

Lemma representatives_ext s s' :
  length (repr s') = length (repr s) →
  (∀ r, rep_of (repr s') r r ↔ rep_of (repr s) r r) →
  representatives s' = representatives s.
Proof.
  intros Hlen Hrep. unfold representatives, elements. rewrite Hlen.
  apply list_filter_iff. intros r. by rewrite <-!is_rep_at.
Qed.

(** Removing one representative from the count. *)
Lemma representatives_remove s s' lose :
  length (repr s') = length (repr s) →
  rep_of (repr s) lose lose →
  (∀ r, rep_of (repr s') r r ↔ rep_of (repr s) r r ∧ r ≠ lose) →
  length (representatives s) = S (length (representatives s')).
Proof.
  intros Hlen Hlose Hrep. unfold representatives, elements. rewrite Hlen.
  rewrite (filter_or_length (λ r, at_ (repr s') r = Some r) (λ r, r = lose)
             (λ r, at_ (repr s) r = Some r)).
  - rewrite filter_eq_length; [lia|apply NoDup_seqZ|].
    apply elem_of_seqZ. apply rep_of_range in Hlose. lia.
  - intros r _. rewrite <-!is_rep_at, Hrep. split.
    + intros Hr. destruct (decide (r = lose)); [by right|by left].
    + intros [[? _]| ->]; done.
  - intros r _ Hr%is_rep_at%Hrep. tauto.
Qed.

(** ** The observations in terms of representatives *)

Lemma find_rep_ext s s' a :
  (∀ r, rep_of (repr s') a r ↔ rep_of (repr s) a r) →
  find_rep s' a = find_rep s a.
Proof.
  intros Hrep. apply option_eq. intros r. by rewrite !find_rep_rep_of.
Qed.

Lemma find_rep_None_find s a fuel :
  (length (repr s) ≤ fuel)%nat → find_rep s a = None → ∀ r s', find fuel a s ≠ Ret (r, s').
Proof.
  intros Hfuel Hnone r s' Hf.
  destruct (find_Ret_inv _ _ _ _ _ Hf) as (_ & _ & Ha%find_rep_rep_of & _). congruence.
Qed.

Lemma size_of_spec s a :
  wf s → size_of s a = (λ r, Z.of_nat (length (members s r))) <$> find_rep s a.
Proof.
  intros Hwf. unfold size_of.
  destruct (find_rep s a) as [r|] eqn:Hr.
  - apply find_rep_rep_of in Hr.
    destruct (size_total (length (repr s)) _ _ _ Hwf Hr ltac:(lia)) as (s' & -> & _). done.
  - destruct (size _ a s) as [[n s']| | |] eqn:Hs; try done.
    destruct (size_Ret_inv _ _ _ _ _ Hwf Hs) as (r & _ & Ha%find_rep_rep_of & _). congruence.
Qed.

Lemma same_spec s u v :
  same s u v = ru ← find_rep s u; rv ← find_rep s v; Some (bool_decide (ru = rv)).
Proof.
  unfold same.
  destruct (get _ u v s) as [[b s']| | |] eqn:Hg.
  - destruct (get_Ret_inv _ _ _ _ _ _ Hg) as (ru & s1 & rv & _ & _ & Hu & Hv & ->).
    apply find_rep_rep_of in Hu, Hv. by rewrite Hu, Hv.
  - destruct (find_rep s u) as [ru|] eqn:Hu; [|done]. simpl.
    destruct (find_rep s v) as [rv|] eqn:Hv; [|done]. simpl.
    apply find_rep_rep_of in Hu, Hv.
    destruct (get_total (length (repr s)) _ _ _ _ _ Hu Hv ltac:(lia)) as [s' Hg']. congruence.
  - destruct (find_rep s u) as [ru|] eqn:Hu; [|done]. simpl.
    destruct (find_rep s v) as [rv|] eqn:Hv; [|done]. simpl.
    apply find_rep_rep_of in Hu, Hv.
    destruct (get_total (length (repr s)) _ _ _ _ _ Hu Hv ltac:(lia)) as [s' Hg']. congruence.
  - destruct (find_rep s u) as [ru|] eqn:Hu; [|done]. simpl.
    destruct (find_rep s v) as [rv|] eqn:Hv; [|done]. simpl.
    apply find_rep_rep_of in Hu, Hv.
    destruct (get_total (length (repr s)) _ _ _ _ _ Hu Hv ltac:(lia)) as [s' Hg']. congruence.
Qed.

Lemma find_rep_valid s a :
  wf s → 0 ≤ a < Z.of_nat (length (repr s)) → ∃ r, find_rep s a = Some r.
Proof.
  intros Hwf Ha. destruct (wf_rep _ Hwf a Ha) as [r Hr]. exists r. by apply find_rep_rep_of.
Qed.

(** ** No method throws *)

Lemma no_throw_bind {A B : Type} (m : outcome A) (f : A → outcome B) :
  no_throw m → (∀ x, no_throw (f x)) → no_throw (m ≫= f).
Proof.
  intros Hm Hf e. destruct m as [x|e'| |]; [apply Hf|by destruct (Hm e')|done|done].
Qed.

Lemma no_throw_vread {A : Type} (v : list A) i : no_throw (vread v i).
Proof. intros e. unfold vread. by destruct (at_ v i). Qed.

Lemma no_throw_vwrite {A : Type} (v : list A) i x : no_throw (vwrite v i x).
Proof. intros e. unfold vwrite. by destruct (at_ v i). Qed.

Lemma no_throw_int_add x y : no_throw (int_add x y).
Proof. intros e. unfold int_add. by case_bool_decide. Qed.

Lemma no_throw_find fuel a s : no_throw (find fuel a s).
Proof.
  revert a s. induction fuel as [|fuel IH]; intros a s; [done|].
  rewrite find_S. apply no_throw_bind; [apply no_throw_vread|]. intros ra.
  case_bool_decide; [done|].
  apply no_throw_bind; [apply IH|]. intros [r s1].
  apply no_throw_bind; [apply no_throw_vwrite|]. intros repr1.
  apply no_throw_bind; [apply no_throw_vread|]. done.
Qed.

Lemma no_throw_size fuel a s : no_throw (size fuel a s).
Proof.
  unfold size. apply no_throw_bind; [apply no_throw_find|]. intros [r s1].
  apply no_throw_bind; [apply no_throw_vread|]. done.
Qed.

Lemma no_throw_get fuel u v s : no_throw (get fuel u v s).
Proof.
  unfold get. apply no_throw_bind; [apply no_throw_find|]. intros [ru s1].
  apply no_throw_bind; [apply no_throw_find|]. intros [rv s2].
  by case_bool_decide.
Qed.

Lemma no_throw_merge fuel x y s : no_throw (merge fuel x y s).
Proof.
  unfold merge. apply no_throw_bind; [apply no_throw_find|]. intros [rx s1].
  apply no_throw_bind; [apply no_throw_find|]. intros [ry s2].
  case_bool_decide; [done|].
  apply no_throw_bind; [apply no_throw_vread|]. intros sp.
  apply no_throw_bind; [apply no_throw_vread|]. intros sg.
  destruct (bool_decide (sp > sg));
    repeat (first [apply no_throw_bind; [first [apply no_throw_vread|apply no_throw_vwrite
                                               |apply no_throw_int_add]|]; intros ?
                  |done]).
Qed.

Lemma no_throw_count_islands s : no_throw (count_islands s).
Proof.
  unfold count_islands.
  assert (∀ l m, no_throw m → no_throw (foldl count_step m l)) as Hgen.
  { induction l as [|el l IH]; intros m Hm; [done|]. simpl foldl. apply IH.
    unfold count_step. apply no_throw_bind; [done|]. intros c.
    case_bool_decide; [apply no_throw_int_add|done]. }
  by apply Hgen.
Qed.

(** ** The worked scenario is reachable *)

Lemma scenario_reachable : reachable scenario.
Proof.
  apply (reachable_merge 5 1 2
           {| component_size := [2; 0; 2; 0; 1]; repr := [0; 0; 2; 2; 4];
              additionalInfo := [(0, 1); (1, 1); (2, 3); (3, 3); (4, 4)] |});
    [|reflexivity].
  apply (reachable_merge 5 2 3
           {| component_size := [2; 0; 1; 1; 1]; repr := [0; 0; 2; 3; 4];
              additionalInfo := [(0, 1); (1, 1); (2, 2); (3, 3); (4, 4)] |});
    [|reflexivity].
  apply (reachable_merge 5 0 1
           {| component_size := [1; 1; 1; 1; 1]; repr := [0; 1; 2; 3; 4];
              additionalInfo := [(0, 0); (1, 1); (2, 2); (3, 3); (4, 4)] |});
    [|reflexivity].
  apply (reachable_ctor 5); [|reflexivity].
  unfold is_int, INT_MIN, INT_MAX. lia.
Qed.

Lemma four_reachable : reachable four.
Proof.
  apply (reachable_ctor 4); [|reflexivity].
  unfold is_int, INT_MIN, INT_MAX. lia.
Qed.

Lemma empty_reachable : reachable empty_union_find.
Proof.
  apply (reachable_ctor 0); [|reflexivity].
  unfold is_int, INT_MIN, INT_MAX. lia.
Qed.

(** The numbers of the scenario, computed. *)

Example scenario_count : count_islands scenario = Ret 2.
Proof. reflexivity. Qed.

Example scenario_members : members scenario 0 = [0; 1; 2; 3].
Proof. reflexivity. Qed.

Example scenario_size : size_of scenario 3 = Some 4.
Proof. reflexivity. Qed.

Example scenario_find :
  find 5 3 scenario =
    Ret (0, {| component_size := [4; 0; 0; 0; 1];
               repr := [0; 0; 0; 0; 4];
               additionalInfo := [(0, 3); (1, 1); (2, 3); (3, 3); (4, 4)] |}).
Proof. reflexivity. Qed.

Example scenario_same : same scenario 1 3 = Some true ∧ same scenario 1 4 = Some false.
Proof. split; reflexivity. Qed.

Example four_merge_tie :
  merge 4 2 1 four =
    Ret {| component_size := [1; 0; 2; 1];
           repr := [0; 2; 2; 3];
           additionalInfo := [(0, 0); (1, 1); (1, 2); (3, 3)] |}.
Proof. reflexivity. Qed.

(** ** The specification, claim by claim *)

Lemma find_again_rep_of k fuel a s r :
  rep_of (repr s) a r → (length (repr s) ≤ fuel)%nat →
  ∃ s', find_again k fuel a s = Ret (r, s').
Proof.
  revert s. induction k as [|k IH]; intros s Ha Hfuel.
  - destruct (find_rep_of fuel _ _ _ Ha Hfuel) as (p' & Hf & _). by eexists.
  - destruct (find_rep_of fuel _ _ _ Ha Hfuel) as (p' & Hf & Hlen & Hrep & _).
    simpl. rewrite Hf, bind_Ret. apply IH; simpl; [by apply Hrep|lia].
Qed.

(** C1.  On a reachable structure and a valid identifier [a], [find a]
    returns the representative [r] of [a]'s component: the fixed point
    reached by iterating [repr] from [a], the only one there is.  After
    the call every node of the walk from [a] to [r] points at [r], and
    calling [find a] again, any number of times, returns [r] each time. *)
Theorem find_returns_representative s a fuel :
  reachable s →
  0 ≤ a < Z.of_nat (length (repr s)) →
  (length (repr s) ≤ fuel)%nat →
  ∃ r s', find fuel a s = Ret (r, s') ∧
    rep_of (repr s) a r ∧
    at_ (repr s) r = Some r ∧
    (∃ k, Nat.iter k (parent (repr s)) a = r) ∧
    (∀ r', rep_of (repr s) a r' → r' = r) ∧
    (∀ x, on_path (repr s) a x → at_ (repr s') x = Some r) ∧
    (∀ k, ∃ s'', find_again k fuel a s = Ret (r, s'')).
Proof.
  intros Hwf%reachable_wf Ha Hfuel.
  destruct (wf_rep _ Hwf a Ha) as [r Hr].
  destruct (find_rep_of fuel _ _ _ Hr Hfuel) as (p' & Hf & _ & _ & Hpath & _).
  exists r, (set_repr s p'). split_and!.
  - done.
  - done.
  - by eapply rep_of_fixed.
  - destruct Hr as [k Hk]. exists k. by apply reaches_iter in Hk as [? _].
  - intros r' Hr'. by eapply rep_of_fun.
  - done.
  - intros k. by apply find_again_rep_of.
Qed.

Lemma find_returns_representative_witness :
  reachable scenario ∧
  0 ≤ 3 < Z.of_nat (length (repr scenario)) ∧
  (length (repr scenario) ≤ 5)%nat ∧
  ∃ r s', find 5 3 scenario = Ret (r, s') ∧
    rep_of (repr scenario) 3 r ∧
    at_ (repr scenario) r = Some r ∧
    (∃ k, Nat.iter k (parent (repr scenario)) 3 = r) ∧
    (∀ r', rep_of (repr scenario) 3 r' → r' = r) ∧
    (∀ x, on_path (repr scenario) 3 x → at_ (repr s') x = Some r) ∧
    (∀ k, ∃ s'', find_again k 5 3 scenario = Ret (r, s'')).
Proof.
  assert (0 ≤ 3 < Z.of_nat (length (repr scenario))) as Ha by (simpl; lia).
  assert (length (repr scenario) ≤ 5)%nat as Hfuel by (simpl; lia).
  split; [apply scenario_reachable|]. split; [apply Ha|]. split; [apply Hfuel|].
  apply (find_returns_representative scenario 3 5 scenario_reachable Ha Hfuel).
Defined.

(** C2.  In every reachable structure the size stored at a representative
    is the number of elements of its component, the size stored at an
    absorbed index is 0, and the sizes [size r] of the representatives
    add up to the number of elements. *)
Theorem sizes_count_members s :
  reachable s →
  (∀ r, at_ (repr s) r = Some r →
     at_ (component_size s) r = Some (Z.of_nat (length (members s r)))) ∧
  (∀ i b, at_ (repr s) i = Some b → b ≠ i → at_ (component_size s) i = Some 0) ∧
  ∃ sizes, Forall2 (λ r n, size_of s r = Some n) (representatives s) sizes ∧
    sumZ sizes = Z.of_nat (length (repr s)).
Proof.
  intros Hwf%reachable_wf. split_and!.
  - intros r Hr%is_rep_at. by apply wf_size.
  - intros i b Hi Hne. apply wf_absorbed; [done|by eapply at_Some_range|].
    intros Hr%is_rep_at. congruence.
  - exists ((λ r, default 0 (at_ (component_size s) r)) <$> representatives s). split.
    + apply Forall2_fmap_r, Forall_Forall2_diag, Forall_forall.
      intros r Hr%elem_of_representatives.
      rewrite size_of_spec by done.
      rewrite (proj2 (find_rep_rep_of s r r) Hr). simpl.
      by rewrite (wf_size _ Hwf _ Hr).
    + unfold representatives. rewrite sumZ_filter_zero.
      * unfold elements. rewrite <-(wf_size_len _ Hwf), list_as_table.
        rewrite (wf_sum _ Hwf). by rewrite (wf_size_len _ Hwf).
      * intros i Hi%elem_of_elements Hn.
        rewrite (wf_absorbed _ Hwf i Hi); [done|]. by rewrite is_rep_at.
Qed.

Lemma sizes_count_members_witness :
  reachable scenario ∧
  (∀ r, at_ (repr scenario) r = Some r →
     at_ (component_size scenario) r = Some (Z.of_nat (length (members scenario r)))) ∧
  (∀ i b, at_ (repr scenario) i = Some b → b ≠ i → at_ (component_size scenario) i = Some 0) ∧
  ∃ sizes, Forall2 (λ r n, size_of scenario r = Some n) (representatives scenario) sizes ∧
    sumZ sizes = Z.of_nat (length (repr scenario)).
Proof.
  split; [apply scenario_reachable|].
  apply (sizes_count_members scenario scenario_reachable).
Defined.

(** C3.  In a reachable structure the pair stored in [additionalInfo] at
    a representative is the least and the greatest element of its
    component, the component being the elements for which [find] reports
    that representative; and the constructor stores [(i, i)] at every
    index [i]. *)
Theorem info_bounds_component s r :
  reachable s →
  at_ (repr s) r = Some r →
  (∃ lo hi, at_ (additionalInfo s) r = Some (lo, hi) ∧
     list_min (members s r) = Some lo ∧
     list_max (members s r) = Some hi) ∧
  (∀ n, ∃ s0, union_find_ctor n = Ret s0 ∧
     additionalInfo s0 = (λ i, (i, i)) <$> seqZ 0 n).
Proof.
  intros Hwf%reachable_wf Hr%is_rep_at. split.
  - destruct (wf_info _ Hwf _ Hr) as (lo & hi & E & Hlo & Hhi & Hb).
    exists lo, hi. split_and!; [done| |].
    + apply list_min_spec; [by apply elem_of_members|].
      intros i Hi%elem_of_members. by apply Hb.
    + apply list_max_spec; [by apply elem_of_members|].
      intros i Hi%elem_of_members. by apply Hb.
  - intros n. eexists. split; [apply union_find_ctor_eq|done].
Qed.

Lemma info_bounds_component_witness :
  reachable scenario ∧
  at_ (repr scenario) 0 = Some 0 ∧
  (∃ lo hi, at_ (additionalInfo scenario) 0 = Some (lo, hi) ∧
     list_min (members scenario 0) = Some lo ∧
     list_max (members scenario 0) = Some hi) ∧
  (∀ n, ∃ s0, union_find_ctor n = Ret s0 ∧
     additionalInfo s0 = (λ i, (i, i)) <$> seqZ 0 n).
Proof.
  split; [apply scenario_reachable|]. split; [reflexivity|].
  apply (info_bounds_component scenario 0 scenario_reachable eq_refl).
Defined.

Lemma merge_post_swap_cases (rx ry cx cy lose win : Z) :
  (if bool_decide (cy > cx) then (rx, ry) else (ry, rx)) = (lose, win) →
  (cy > cx ∧ lose = rx ∧ win = ry) ∨ (¬ cy > cx ∧ lose = ry ∧ win = rx).
Proof. case_bool_decide; intros [= <- <-]; [left|right]; done. Qed.

(** [merge] on two different components, with the number of elements as
    fuel. *)
Lemma merge_distinct s x y rx ry fuel :
  wf s → rep_of (repr s) x rx → rep_of (repr s) y ry → rx ≠ ry →
  (length (repr s) ≤ fuel)%nat →
  ∃ s' cx cy win lose,
    merge fuel x y s = Ret s' ∧ wf s' ∧
    at_ (component_size s) rx = Some cx ∧
    at_ (component_size s) ry = Some cy ∧
    0 < cx ∧ 0 < cy ∧
    (if bool_decide (cy > cx) then (rx, ry) else (ry, rx)) = (lose, win) ∧
    win ≠ lose ∧
    at_ (repr s') lose = Some win ∧
    at_ (repr s') win = Some win ∧
    at_ (component_size s') win = Some (cx + cy) ∧
    at_ (component_size s') lose = Some 0.
Proof.
  intros Hwf Hx Hy Hne Hfuel.
  destruct (merge_total fuel _ _ _ _ _ Hwf Hx Hy Hfuel) as (s' & Hm & Hwf' & _ & Hpost).
  rewrite decide_False in Hpost by done.
  destruct Hpost as (cx & cy & ix & iy & win & lose & Hcx & Hcy & _ & _ & Hswap
                     & Ecs & _ & Hl & Hw & _).
  pose proof (rep_of_idem _ _ _ Hx) as Hrx. pose proof (rep_of_idem _ _ _ Hy) as Hry.
  pose proof (wf_size _ Hwf _ Hrx) as Hcx'. pose proof (wf_size _ Hwf _ Hry) as Hcy'.
  pose proof (members_rep_nonempty _ _ Hrx). pose proof (members_rep_nonempty _ _ Hry).
  pose proof (at_Some_range _ _ _ Hcx) as Hrxr. pose proof (at_Some_range _ _ _ Hcy) as Hryr.
  assert (win ≠ lose ∧ 0 ≤ win < Z.of_nat (length (component_size s))
          ∧ 0 ≤ lose < Z.of_nat (length (component_size s))) as (Hwl & Hwr & Hlr).
  { destruct (merge_post_swap_cases _ _ _ _ _ _ Hswap) as [(_ & -> & ->)|(_ & -> & ->)]; done. }
  exists s', cx, cy, win, lose. split_and!; try done; try (simplify_eq; lia).
  - rewrite Ecs, at_insert_ne by (done || lia). by apply at_insert_eq.
  - rewrite Ecs. apply at_insert_eq. by rewrite length_insert.
Qed.

(** What a returning [merge] does to the component count. *)
Lemma merge_count_step s fuel x y s' :
  wf s → merge fuel x y s = Ret s' →
  ∃ c c' b,
    count_islands s = Ret c ∧ count_islands s' = Ret c' ∧
    same s x y = Some b ∧
    c' = (if b then c else c - 1) ∧ c' ≤ c.
Proof.
  intros Hwf Hm.
  destruct (merge_Ret_inv _ _ _ _ _ Hwf Hm) as (rx & ry & Hx & Hy & Hwf' & Hlen & Hpost).
  exists (Z.of_nat (length (representatives s))),
         (Z.of_nat (length (representatives s'))), (bool_decide (rx = ry)).
  split; [by apply count_islands_representatives|].
  split; [by apply count_islands_representatives|].
  split.
  { rewrite same_spec, (proj2 (find_rep_rep_of s x rx) Hx),
      (proj2 (find_rep_rep_of s y ry) Hy). done. }
  destruct (decide (rx = ry)) as [->|Hne].
  - rewrite bool_decide_eq_true_2 by done.
    destruct Hpost as (_ & _ & Hrep).
    rewrite (representatives_ext s s'); [lia|done|]. intros r. apply Hrep.
  - rewrite bool_decide_eq_false_2 by done.
    destruct Hpost as (cx & cy & ix & iy & win & lose & _ & _ & _ & _ & Hswap
                       & _ & _ & _ & _ & Hrep).
    pose proof (rep_of_idem _ _ _ Hx) as Hrx. pose proof (rep_of_idem _ _ _ Hy) as Hry.
    assert (win ≠ lose ∧ rep_of (repr s) win win ∧ rep_of (repr s) lose lose)
      as (Hwl & Hw & Hl).
    { destruct (merge_post_swap_cases _ _ _ _ _ _ Hswap) as [(_ & -> & ->)|(_ & -> & ->)]; done. }
    rewrite (representatives_remove s s' lose); [lia|done|done|].
    intros r. rewrite Hrep. split; [|by left].
    intros [?|[Hr ->]]; [done|]. destruct Hwl. by eapply rep_of_fun.
Qed.

(** C4.  [count_islands] returns the number of positive entries of
    [component_size], which is the number of representatives, one for
    each component.  On valid identifiers [merge], given the number of
    elements as fuel, returns, and the count afterwards is the count
    before less one when the arguments were in different components and
    the same count otherwise; whatever the fuel, a [merge] that returns
    has this effect. *)
Theorem count_islands_counts_components s :
  reachable s →
  count_islands s = Ret (Z.of_nat (length (filter (λ el, el > 0) (component_size s)))) ∧
  length (filter (λ el, el > 0) (component_size s)) = length (representatives s) ∧
  NoDup (representatives s) ∧
  (∀ r, r ∈ representatives s ↔ ∃ a, find_rep s a = Some r) ∧
  (∀ fuel x y s', merge fuel x y s = Ret s' →
     ∃ c c' b,
       count_islands s = Ret c ∧ count_islands s' = Ret c' ∧
       same s x y = Some b ∧
       c' = (if b then c else c - 1) ∧ c' ≤ c) ∧
  (∀ fuel x y,
     0 ≤ x < Z.of_nat (length (repr s)) →
     0 ≤ y < Z.of_nat (length (repr s)) →
     (length (repr s) ≤ fuel)%nat →
     ∃ s' c c' b,
       merge fuel x y s = Ret s' ∧
       count_islands s = Ret c ∧ count_islands s' = Ret c' ∧
       same s x y = Some b ∧
       c' = (if b then c else c - 1) ∧ c' ≤ c).
Proof.
  intros Hwf%reachable_wf.
  split; [by apply count_islands_positive|].
  split; [by apply positive_count_representatives|].
  split; [apply NoDup_filter, NoDup_seqZ|].
  split.
  { intros r. rewrite elem_of_representatives. split.
    - intros Hr. exists r. by apply find_rep_rep_of.
    - intros [a Ha%find_rep_rep_of]. by eapply rep_of_idem. }
  split.
  - intros fuel x y s' Hm. by eapply merge_count_step.
  - intros fuel x y Hx Hy Hfuel.
    destruct (wf_rep _ Hwf x Hx) as [rx Hrx]. destruct (wf_rep _ Hwf y Hy) as [ry Hry].
    destruct (merge_total fuel _ _ _ _ _ Hwf Hrx Hry Hfuel) as (s' & Hm & _).
    destruct (merge_count_step _ _ _ _ _ Hwf Hm) as (c & c' & b & Hc).
    by exists s', c, c', b.
Qed.

Lemma count_islands_counts_components_witness :
  reachable scenario ∧
  0 ≤ 4 < Z.of_nat (length (repr scenario)) ∧
  0 ≤ 3 < Z.of_nat (length (repr scenario)) ∧
  (length (repr scenario) ≤ 5)%nat ∧
  merge 5 4 3 scenario = Ret scenario_merged ∧
  same scenario 4 3 = Some false ∧
  count_islands scenario = Ret 2 ∧
  count_islands scenario_merged = Ret 1 ∧
  merge 5 1 3 scenario = Ret scenario_flat ∧
  same scenario 1 3 = Some true ∧
  count_islands scenario_flat = Ret 2 ∧
  count_islands scenario =
    Ret (Z.of_nat (length (filter (λ el, el > 0) (component_size scenario)))) ∧
  length (filter (λ el, el > 0) (component_size scenario))
    = length (representatives scenario) ∧
  NoDup (representatives scenario) ∧
  (∀ r, r ∈ representatives scenario ↔ ∃ a, find_rep scenario a = Some r) ∧
  (∀ fuel x y s', merge fuel x y scenario = Ret s' →
     ∃ c c' b,
       count_islands scenario = Ret c ∧ count_islands s' = Ret c' ∧
       same scenario x y = Some b ∧
       c' = (if b then c else c - 1) ∧ c' ≤ c) ∧
  (∃ s' c c' b,
     merge 5 4 3 scenario = Ret s' ∧
     count_islands scenario = Ret c ∧ count_islands s' = Ret c' ∧
     same scenario 4 3 = Some b ∧
     c' = (if b then c else c - 1) ∧ c' ≤ c).
Proof.
  assert (0 ≤ 4 < Z.of_nat (length (repr scenario))) as Hx by (simpl; lia).
  assert (0 ≤ 3 < Z.of_nat (length (repr scenario))) as Hy by (simpl; lia).
  assert (length (repr scenario) ≤ 5)%nat as Hfuel by (simpl; lia).
  destruct (count_islands_counts_components scenario scenario_reachable)
    as (H1 & H2 & H3 & H4 & H5 & H6).
  split; [apply scenario_reachable|]. split; [apply Hx|]. split; [apply Hy|].
  split; [apply Hfuel|].
  split; [reflexivity|]. split; [reflexivity|]. split; [reflexivity|].
  split; [reflexivity|]. split; [reflexivity|]. split; [reflexivity|].
  split; [reflexivity|].
  split; [apply H1|]. split; [apply H2|]. split; [apply H3|]. split; [apply H4|].
  split; [apply H5|]. apply (H6 5%nat 4 3 Hx Hy Hfuel).
Defined.

(** C5.  When [x] and [y] lie in different components, [merge x y] links
    the representative of the strictly smaller component below the
    representative of the larger one; the surviving representative then
    holds the sum of the two sizes and the absorbed one holds 0. *)
Theorem merge_links_smaller_below_larger s x y rx ry fuel :
  reachable s →
  find_rep s x = Some rx → find_rep s y = Some ry → rx ≠ ry →
  (length (repr s) ≤ fuel)%nat →
  ∃ s' cx cy win lose,
    merge fuel x y s = Ret s' ∧
    size_of s x = Some cx ∧ size_of s y = Some cy ∧
    (cx < cy → lose = rx ∧ win = ry) ∧
    (cy < cx → lose = ry ∧ win = rx) ∧
    (lose = rx ∧ win = ry ∨ lose = ry ∧ win = rx) ∧
    at_ (repr s') lose = Some win ∧
    at_ (repr s') win = Some win ∧
    at_ (component_size s') win = Some (cx + cy) ∧
    at_ (component_size s') lose = Some 0.
Proof.
  intros Hwf%reachable_wf Hx Hy Hne Hfuel.
  pose proof (size_of_spec s x Hwf) as Hsx. pose proof (size_of_spec s y Hwf) as Hsy.
  rewrite Hx in Hsx. rewrite Hy in Hsy. simpl in Hsx, Hsy.
  apply find_rep_rep_of in Hx, Hy.
  destruct (merge_distinct _ _ _ _ _ fuel Hwf Hx Hy Hne Hfuel)
    as (s' & cx & cy & win & lose & Hm & _ & Hcx & Hcy & _ & _ & Hswap & _ & Hl & Hw & Hcw & Hcl).
  rewrite (wf_size _ Hwf rx) in Hcx by (by eapply rep_of_idem).
  rewrite (wf_size _ Hwf ry) in Hcy by (by eapply rep_of_idem).
  exists s', cx, cy, win, lose.
  destruct (merge_post_swap_cases _ _ _ _ _ _ Hswap) as [(? & -> & ->)|(? & -> & ->)];
    split_and!; try done; try congruence; try lia; auto.
Qed.

Lemma merge_links_smaller_below_larger_witness :
  reachable scenario ∧
  find_rep scenario 4 = Some 4 ∧ find_rep scenario 3 = Some 0 ∧ 4 ≠ 0 ∧
  (length (repr scenario) ≤ 5)%nat ∧
  ∃ s' cx cy win lose,
    merge 5 4 3 scenario = Ret s' ∧
    size_of scenario 4 = Some cx ∧ size_of scenario 3 = Some cy ∧
    (cx < cy → lose = 4 ∧ win = 0) ∧
    (cy < cx → lose = 0 ∧ win = 4) ∧
    (lose = 4 ∧ win = 0 ∨ lose = 0 ∧ win = 4) ∧
    at_ (repr s') lose = Some win ∧
    at_ (repr s') win = Some win ∧
    at_ (component_size s') win = Some (cx + cy) ∧
    at_ (component_size s') lose = Some 0.
Proof.
  assert (4 ≠ 0) as Hne by lia.
  assert (length (repr scenario) ≤ 5)%nat as Hfuel by (simpl; lia).
  split; [apply scenario_reachable|]. split; [reflexivity|]. split; [reflexivity|].
  split; [apply Hne|]. split; [apply Hfuel|].
  apply (merge_links_smaller_below_larger scenario 4 3 4 0 5
           scenario_reachable eq_refl eq_refl Hne Hfuel).
Defined.

(** C6.  When [x] and [y] already lie in one component, [merge x y]
    returns and changes no observation: the vector of sizes, the vector
    of bounds, every [size u], every [get u v] and the component count
    are what they were. *)
Theorem merge_same_component_noop s x y fuel :
  reachable s →
  same s x y = Some true →
  (length (repr s) ≤ fuel)%nat →
  ∃ s', merge fuel x y s = Ret s' ∧
    component_size s' = component_size s ∧
    additionalInfo s' = additionalInfo s ∧
    (∀ u, size_of s' u = size_of s u) ∧
    (∀ u v, same s' u v = same s u v) ∧
    count_islands s' = count_islands s.
Proof.
  intros Hwf%reachable_wf Hsame Hfuel.
  rewrite same_spec in Hsame.
  destruct (find_rep s x) as [rx|] eqn:Hx; [|done].
  destruct (find_rep s y) as [ry|] eqn:Hy; [|done].
  simpl in Hsame. assert (rx = ry) as <- by (case_bool_decide; congruence).
  apply find_rep_rep_of in Hx, Hy.
  destruct (merge_total fuel _ _ _ _ _ Hwf Hx Hy Hfuel) as (s' & Hm & Hwf' & Hlen & Hpost).
  rewrite decide_True in Hpost by done. destruct Hpost as (Ecs & Einfo & Hrep).
  assert (∀ u, find_rep s' u = find_rep s u) as Hfr.
  { intros u. apply find_rep_ext. intros r. apply Hrep. }
  exists s'. split_and!; try done.
  - intros u. rewrite !size_of_spec, Hfr by done.
    destruct (find_rep s u) as [r|]; [|done]. simpl.
    rewrite (members_ext s s'); [done|done|]. intros a. apply Hrep.
  - intros u v. by rewrite !same_spec, !Hfr.
  - unfold count_islands. by rewrite Ecs.
Qed.

Lemma merge_same_component_noop_witness :
  reachable scenario ∧
  same scenario 1 3 = Some true ∧
  (length (repr scenario) ≤ 5)%nat ∧
  ∃ s', merge 5 1 3 scenario = Ret s' ∧
    component_size s' = component_size scenario ∧
    additionalInfo s' = additionalInfo scenario ∧
    (∀ u, size_of s' u = size_of scenario u) ∧
    (∀ u v, same s' u v = same scenario u v) ∧
    count_islands s' = count_islands scenario.
Proof.
  assert (length (repr scenario) ≤ 5)%nat as Hfuel by (simpl; lia).
  split; [apply scenario_reachable|]. split; [reflexivity|]. split; [apply Hfuel|].
  apply (merge_same_component_noop scenario 1 3 5 scenario_reachable eq_refl Hfuel).
Defined.

(** C10.  When [merge gravity pebble] joins two different components of
    equal size, the representative of [gravity] survives and that of
    [pebble] is linked below it; the representative of [gravity] is the
    one linked below the other exactly when the component of [pebble] is
    strictly larger. *)
Theorem merge_tie_keeps_first s gravity pebble rg rp cg cp fuel :
  reachable s →
  find_rep s gravity = Some rg → find_rep s pebble = Some rp → rg ≠ rp →
  at_ (component_size s) rg = Some cg →
  at_ (component_size s) rp = Some cp →
  (length (repr s) ≤ fuel)%nat →
  ∃ s', merge fuel gravity pebble s = Ret s' ∧
    (cg = cp → at_ (repr s') rp = Some rg ∧ at_ (repr s') rg = Some rg) ∧
    (at_ (repr s') rg = Some rp ↔ cp > cg) ∧
    (at_ (repr s') rp = Some rg ↔ ¬ cp > cg).
Proof.
  intros Hwf%reachable_wf Hx%find_rep_rep_of Hy%find_rep_rep_of Hne Hcg Hcp Hfuel.
  destruct (merge_distinct _ _ _ _ _ fuel Hwf Hx Hy Hne Hfuel)
    as (s' & cx & cy & win & lose & Hm & _ & Hcx & Hcy & _ & _ & Hswap & _ & Hl & Hw & _).
  assert (cx = cg) as -> by congruence. assert (cy = cp) as -> by congruence.
  exists s'. split; [done|].
  destruct (merge_post_swap_cases _ _ _ _ _ _ Hswap) as [(? & -> & ->)|(? & -> & ->)].
  - split_and!.
    + lia.
    + done.
    + split; [intros ?; simplify_eq|intros []; done].
  - split_and!.
    + done.
    + split; [intros ?; simplify_eq|done].
    + done.
Qed.

Lemma merge_tie_keeps_first_witness :
  reachable four ∧
  find_rep four 2 = Some 2 ∧ find_rep four 1 = Some 1 ∧ 2 ≠ 1 ∧
  at_ (component_size four) 2 = Some 1 ∧
  at_ (component_size four) 1 = Some 1 ∧
  (length (repr four) ≤ 4)%nat ∧
  ∃ s', merge 4 2 1 four = Ret s' ∧
    (1 = 1 → at_ (repr s') 1 = Some 2 ∧ at_ (repr s') 2 = Some 2) ∧
    (at_ (repr s') 2 = Some 1 ↔ 1 > 1) ∧
    (at_ (repr s') 1 = Some 2 ↔ ¬ 1 > 1).
Proof.
  assert (2 ≠ 1) as Hne by lia.
  assert (length (repr four) ≤ 4)%nat as Hfuel by (simpl; lia).
  split; [apply four_reachable|]. split; [reflexivity|]. split; [reflexivity|].
  split; [apply Hne|]. split; [reflexivity|]. split; [reflexivity|]. split; [apply Hfuel|].
  apply (merge_tie_keeps_first four 2 1 2 1 1 1 4
           four_reachable eq_refl eq_refl Hne eq_refl eq_refl Hfuel).
Defined.

Lemma find_out_of_range fuel a s :
  ¬ (0 ≤ a < Z.of_nat (length (repr s))) → find (S fuel) a s = Undefined.
Proof. intros Ha. by rewrite find_S, (vread_None _ _ (at_None _ _ Ha)). Qed.

(** C7, as the code has it.  No method validates an identifier: with an
    identifier outside [0, n) the first [repr[a]] is an unchecked access
    past the vector, so [find], [size], [merge] and [get] are undefined
    there, whichever argument is the bad one; and no method ever ends in
    a typed error. *)
Theorem out_of_range_is_undefined s a fuel :
  ¬ (0 ≤ a < Z.of_nat (length (repr s))) →
  find (S fuel) a s = Undefined ∧
  size (S fuel) a s = Undefined ∧
  (∀ y, merge (S fuel) a y s = Undefined) ∧
  (∀ v, get (S fuel) a v s = Undefined) ∧
  (∀ x, reachable s → 0 ≤ x < Z.of_nat (length (repr s)) →
     (length (repr s) ≤ S fuel)%nat →
     merge (S fuel) x a s = Undefined ∧ get (S fuel) x a s = Undefined) ∧
  (∀ f b c, no_throw (find f b s) ∧ no_throw (size f b s) ∧
     no_throw (merge f b c s) ∧ no_throw (get f b c s)).
Proof.
  intros Ha. pose proof (find_out_of_range fuel a s Ha) as Hf. split_and!.
  - done.
  - unfold size. by rewrite Hf.
  - intros y. unfold merge. by rewrite Hf.
  - intros v. unfold get. by rewrite Hf.
  - intros x Hwf%reachable_wf Hx Hfuel.
    destruct (wf_rep _ Hwf x Hx) as [rx Hrx].
    destruct (find_rep_of (S fuel) _ _ _ Hrx Hfuel) as (p1 & H1 & Hlen & _).
    assert (find (S fuel) a (set_repr s p1) = Undefined) as H2.
    { apply find_out_of_range. simpl. by rewrite Hlen. }
    unfold merge, get. by rewrite H1, !bind_Ret, H2.
  - intros f b c. split_and!;
      [apply no_throw_find|apply no_throw_size|apply no_throw_merge|apply no_throw_get].
Qed.

Lemma out_of_range_is_undefined_witness :
  ¬ (0 ≤ 7 < Z.of_nat (length (repr scenario))) ∧
  find 5 7 scenario = Undefined ∧
  size 5 7 scenario = Undefined ∧
  (∀ y, merge 5 7 y scenario = Undefined) ∧
  (∀ v, get 5 7 v scenario = Undefined) ∧
  (∀ x, reachable scenario → 0 ≤ x < Z.of_nat (length (repr scenario)) →
     (length (repr scenario) ≤ 5)%nat →
     merge 5 x 7 scenario = Undefined ∧ get 5 x 7 scenario = Undefined) ∧
  (∀ f b c, no_throw (find f b scenario) ∧ no_throw (size f b scenario) ∧
     no_throw (merge f b c scenario) ∧ no_throw (get f b c scenario)).
Proof.
  assert (¬ (0 ≤ 7 < Z.of_nat (length (repr scenario)))) as Ha by (simpl; lia).
  split; [apply Ha|].
  apply (out_of_range_is_undefined scenario 7 4 Ha).
Defined.

(** C7, as the specification states it, fails: on the structure built
    with [n = 0] the calls [find(0)], [size(0)], [merge(0, 0)] and
    [get(0, 0)] are undefined behaviour, not an [IndexOutOfRange] error;
    so are a too large and a negative identifier on five elements. *)
Lemma out_of_range_not_an_error :
  union_find_ctor 0 = Ret empty_union_find ∧
  find 1 0 empty_union_find = Undefined ∧
  find 1 0 empty_union_find ≠ Throw IndexOutOfRange ∧
  size 1 0 empty_union_find ≠ Throw IndexOutOfRange ∧
  merge 1 0 0 empty_union_find ≠ Throw IndexOutOfRange ∧
  get 1 0 0 empty_union_find ≠ Throw IndexOutOfRange ∧
  find 5 5 scenario = Undefined ∧
  find 5 (-1) scenario = Undefined.
Proof. split_and!; done. Qed.

(** C8, as the code has it.  The constructor never fails: for every
    count it returns [n] singletons, which for a count that is negative
    or 0 is the empty structure; the empty structure is well formed and
    has no component. *)
Theorem ctor_never_fails n :
  ∃ s, union_find_ctor n = Ret s ∧
    component_size s = replicate (Z.to_nat n) 1 ∧
    repr s = seqZ 0 n ∧
    additionalInfo s = (λ i, (i, i)) <$> seqZ 0 n ∧
    (n ≤ 0 → s = empty_union_find) ∧
    (is_int n → wf s) ∧
    wf empty_union_find ∧
    count_islands empty_union_find = Ret 0.
Proof.
  eexists. split; [apply union_find_ctor_eq|]. simpl. split_and!; try done.
  - intros Hn. replace (Z.to_nat n) with 0%nat by lia. by rewrite seqZ_nil.
  - intros Hn. eapply wf_ctor; [done|apply union_find_ctor_eq].
  - apply reachable_wf, empty_reachable.
Qed.

(** C8, as the specification states it, fails: a negative count is not
    rejected with [InvalidArgument], the loop body just never runs. *)
Lemma negative_count_not_an_error :
  union_find_ctor (-1) = Ret empty_union_find ∧
  union_find_ctor (-1) ≠ Throw InvalidArgument ∧
  union_find_ctor INT_MIN = Ret empty_union_find.
Proof. split_and!; done. Qed.

(** C9.  On a reachable structure every method returns when given the
    number of elements as fuel and valid identifiers, and
    [count_islands] returns outright; the recursion of [find] ends
    because following [repr] from a valid element reaches a fixed point
    in fewer steps than there are elements. *)
Theorem methods_terminate s fuel :
  reachable s →
  (length (repr s) ≤ fuel)%nat →
  (∀ a, 0 ≤ a < Z.of_nat (length (repr s)) →
     (∃ r s', find fuel a s = Ret (r, s')) ∧
     (∃ n s', size fuel a s = Ret (n, s')) ∧
     (∃ r k, reaches (repr s) k a r ∧ (k < length (repr s))%nat ∧ at_ (repr s) r = Some r)) ∧
  (∀ x y, 0 ≤ x < Z.of_nat (length (repr s)) → 0 ≤ y < Z.of_nat (length (repr s)) →
     (∃ s', merge fuel x y s = Ret s') ∧
     (∃ b s', get fuel x y s = Ret (b, s'))) ∧
  (∃ c, count_islands s = Ret c).
Proof.
  intros Hwf%reachable_wf Hfuel. split_and!.
  - intros a Ha. destruct (wf_rep _ Hwf a Ha) as [r Hr]. split_and!.
    + destruct (find_rep_of fuel _ _ _ Hr Hfuel) as (p' & Hf & _). by eexists _, _.
    + destruct (size_total fuel _ _ _ Hwf Hr Hfuel) as (s' & Hs & _). by eexists _, _.
    + destruct Hr as [k Hk]. exists r, k. split_and!; [done| |].
      * by eapply reaches_bound.
      * by eapply reaches_fixed.
  - intros x y Hx Hy.
    destruct (wf_rep _ Hwf x Hx) as [rx Hrx]. destruct (wf_rep _ Hwf y Hy) as [ry Hry]. split.
    + destruct (merge_total fuel _ _ _ _ _ Hwf Hrx Hry Hfuel) as (s' & Hm & _). by eexists.
    + destruct (get_total fuel _ _ _ _ _ Hrx Hry Hfuel) as (s' & Hg). by eexists _, _.
  - eexists. by apply count_islands_positive.
Qed.

Lemma methods_terminate_witness :
  reachable scenario ∧
  (length (repr scenario) ≤ 5)%nat ∧
  (∀ a, 0 ≤ a < Z.of_nat (length (repr scenario)) →
     (∃ r s', find 5 a scenario = Ret (r, s')) ∧
     (∃ n s', size 5 a scenario = Ret (n, s')) ∧
     (∃ r k, reaches (repr scenario) k a r ∧ (k < length (repr scenario))%nat
        ∧ at_ (repr scenario) r = Some r)) ∧
  (∀ x y, 0 ≤ x < Z.of_nat (length (repr scenario)) →
     0 ≤ y < Z.of_nat (length (repr scenario)) →
     (∃ s', merge 5 x y scenario = Ret s') ∧
     (∃ b s', get 5 x y scenario = Ret (b, s'))) ∧
  (∃ c, count_islands scenario = Ret c).
Proof.
  assert (length (repr scenario) ≤ 5)%nat as Hfuel by (simpl; lia).
  split; [apply scenario_reachable|]. split; [apply Hfuel|].
  apply (methods_terminate scenario 5 scenario_reachable Hfuel).
Defined.

(** ** Further properties of the methods *)

Lemma same_true s u v :
  same s u v = Some true ↔ ∃ r, rep_of (repr s) u r ∧ rep_of (repr s) v r.
Proof.
  rewrite same_spec. split.
  - destruct (find_rep s u) as [ru|] eqn:Hu; [|done].
    destruct (find_rep s v) as [rv|] eqn:Hv; [|done]. simpl.
    intros [= Hb%bool_decide_eq_true]. subst rv.
    exists ru. by rewrite <-!find_rep_rep_of.
  - intros (r & Hu%find_rep_rep_of & Hv%find_rep_rep_of). rewrite Hu, Hv. simpl.
    by rewrite bool_decide_eq_true_2.
Qed.

Lemma same_valid s u v :
  wf s →
  0 ≤ u < Z.of_nat (length (repr s)) → 0 ≤ v < Z.of_nat (length (repr s)) →
  ∃ b, same s u v = Some b.
Proof.
  intros Hwf Hu Hv. rewrite same_spec.
  destruct (find_rep_valid _ _ Hwf Hu) as [ru ->].
  destruct (find_rep_valid _ _ Hwf Hv) as [rv ->]. simpl. by eexists.
Qed.

Lemma same_Some_range s u v b :
  same s u v = Some b →
  0 ≤ u < Z.of_nat (length (repr s)) ∧ 0 ≤ v < Z.of_nat (length (repr s)).
Proof.
  rewrite same_spec.
  destruct (find_rep s u) as [ru|] eqn:Hu; [|done].
  destruct (find_rep s v) as [rv|] eqn:Hv; [|done]. intros _.
  apply find_rep_rep_of, rep_of_range in Hu, Hv. done.
Qed.

Lemma size_of_at s u :
  wf s → size_of s u = r ← find_rep s u; at_ (component_size s) r.
Proof.
  intros Hwf. rewrite size_of_spec by done.
  destruct (find_rep s u) as [r|] eqn:Hr; [|done]. simpl.
  apply find_rep_rep_of in Hr. symmetry. apply wf_size; [done|]. by eapply rep_of_idem.
Qed.

(** Two structures with the same sizes and the same representatives give
    the same answers. *)
Lemma observations_ext s s' :
  wf s → wf s' →
  component_size s' = component_size s →
  length (repr s') = length (repr s) →
  (∀ x y, rep_of (repr s') x y ↔ rep_of (repr s) x y) →
  (∀ u, find_rep s' u = find_rep s u) ∧
  (∀ u, size_of s' u = size_of s u) ∧
  (∀ u v, same s' u v = same s u v) ∧
  count_islands s' = count_islands s.
Proof.
  intros Hwf Hwf' Ecs Hlen Hrep.
  assert (∀ u, find_rep s' u = find_rep s u) as Hfr.
  { intros u. apply find_rep_ext. intros r. apply Hrep. }
  split_and!.
  - done.
  - intros u. by rewrite !size_of_at, Hfr, Ecs.
  - intros u v. by rewrite !same_spec, !Hfr.
  - unfold count_islands. by rewrite Ecs.
Qed.

(** X1.  On a reachable structure [get] is an equivalence relation on the
    valid identifiers: it answers on every pair of them, is reflexive,
    symmetric and transitive, and two elements it puts together have the
    same [size]. *)
Theorem get_is_equivalence s :
  reachable s →
  (∀ u v, 0 ≤ u < Z.of_nat (length (repr s)) → 0 ≤ v < Z.of_nat (length (repr s)) →
     ∃ b, same s u v = Some b) ∧
  (∀ u, 0 ≤ u < Z.of_nat (length (repr s)) → same s u u = Some true) ∧
  (∀ u v, same s u v = same s v u) ∧
  (∀ u v w, same s u v = Some true → same s v w = Some true → same s u w = Some true) ∧
  (∀ u v, same s u v = Some true → size_of s u = size_of s v).
Proof.
  intros Hwf%reachable_wf. split_and!.
  - intros u v. by apply same_valid.
  - intros u Hu. apply same_true. destruct (wf_rep _ Hwf u Hu) as [r Hr]. by exists r.
  - intros u v. rewrite !same_spec.
    destruct (find_rep s u) as [ru|], (find_rep s v) as [rv|]; simpl; try done.
    f_equal. apply bool_decide_ext. split; congruence.
  - intros u v w (r & Hu & Hv)%same_true (r' & Hv' & Hw)%same_true.
    apply same_true. exists r. split; [done|].
    by rewrite (rep_of_fun _ _ _ _ Hv Hv').
  - intros u v (r & Hu%find_rep_rep_of & Hv%find_rep_rep_of)%same_true.
    by rewrite !size_of_at, Hu, Hv.
Qed.

Lemma get_is_equivalence_witness :
  reachable scenario ∧
  (∀ u v, 0 ≤ u < Z.of_nat (length (repr scenario)) →
     0 ≤ v < Z.of_nat (length (repr scenario)) → ∃ b, same scenario u v = Some b) ∧
  (∀ u, 0 ≤ u < Z.of_nat (length (repr scenario)) → same scenario u u = Some true) ∧
  (∀ u v, same scenario u v = same scenario v u) ∧
  (∀ u v w, same scenario u v = Some true → same scenario v w = Some true →
     same scenario u w = Some true) ∧
  (∀ u v, same scenario u v = Some true → size_of scenario u = size_of scenario v).
Proof.
  split; [apply scenario_reachable|].
  apply (get_is_equivalence scenario scenario_reachable).
Defined.

(** X2.  A returning [find] changes nothing but [repr]: the sizes, the
    bounds and the number of elements stay, and so does every answer of
    [find], [size], [get] and [count_islands]. *)
Theorem find_is_transparent s fuel a r s' :
  reachable s →
  find fuel a s = Ret (r, s') →
  component_size s' = component_size s ∧
  additionalInfo s' = additionalInfo s ∧
  length (repr s') = length (repr s) ∧
  (∀ u, find_rep s' u = find_rep s u) ∧
  (∀ u, size_of s' u = size_of s u) ∧
  (∀ u v, same s' u v = same s u v) ∧
  count_islands s' = count_islands s.
Proof.
  intros Hwf%reachable_wf Hf.
  pose proof (wf_find _ _ _ _ _ Hwf Hf) as Hwf'.
  destruct (find_Ret_inv _ _ _ _ _ Hf) as (p' & -> & _ & Hlen & Hrep & _).
  split; [done|]. split; [done|]. split; [done|].
  by apply observations_ext.
Qed.

Lemma find_is_transparent_witness :
  reachable scenario ∧
  find 5 3 scenario = Ret (0, scenario_flat) ∧
  component_size scenario_flat = component_size scenario ∧
  additionalInfo scenario_flat = additionalInfo scenario ∧
  length (repr scenario_flat) = length (repr scenario) ∧
  (∀ u, find_rep scenario_flat u = find_rep scenario u) ∧
  (∀ u, size_of scenario_flat u = size_of scenario u) ∧
  (∀ u v, same scenario_flat u v = same scenario u v) ∧
  count_islands scenario_flat = count_islands scenario.
Proof.
  split; [apply scenario_reachable|]. split; [reflexivity|].
  apply (find_is_transparent scenario 5 3 0 scenario_flat scenario_reachable eq_refl).
Defined.

(** X3.  A returning [size a] returns the size stored at the
    representative of [a], which is the number of elements of its
    component, and a returning [get x y] returns whether the
    representatives of [x] and [y] are equal.  Like [find] they change
    nothing but [repr]: every later answer of [find], [size], [get] and
    [count_islands] is what it was.  On valid identifiers both return
    when given the number of elements as fuel. *)
Theorem size_and_get_are_transparent s :
  reachable s →
  (∀ fuel a n s', size fuel a s = Ret (n, s') →
     (∃ r, find fuel a s = Ret (r, s') ∧
        rep_of (repr s) a r ∧ at_ (repr s) r = Some r ∧
        at_ (component_size s) r = Some n ∧
        n = Z.of_nat (length (members s r)) ∧ 1 ≤ n) ∧
     size_of s a = Some n ∧
     component_size s' = component_size s ∧
     additionalInfo s' = additionalInfo s ∧
     (∀ u, find_rep s' u = find_rep s u) ∧
     (∀ u, size_of s' u = size_of s u) ∧
     (∀ u v, same s' u v = same s u v) ∧
     count_islands s' = count_islands s) ∧
  (∀ fuel x y b s', get fuel x y s = Ret (b, s') →
     (∃ rx ry, rep_of (repr s) x rx ∧ rep_of (repr s) y ry ∧
        at_ (repr s) rx = Some rx ∧ at_ (repr s) ry = Some ry ∧
        b = bool_decide (rx = ry)) ∧
     same s x y = Some b ∧
     component_size s' = component_size s ∧
     additionalInfo s' = additionalInfo s ∧
     (∀ u, find_rep s' u = find_rep s u) ∧
     (∀ u, size_of s' u = size_of s u) ∧
     (∀ u v, same s' u v = same s u v) ∧
     count_islands s' = count_islands s) ∧
  (∀ fuel a,
     0 ≤ a < Z.of_nat (length (repr s)) → (length (repr s) ≤ fuel)%nat →
     ∃ n s', size fuel a s = Ret (n, s')) ∧
  (∀ fuel x y,
     0 ≤ x < Z.of_nat (length (repr s)) → 0 ≤ y < Z.of_nat (length (repr s)) →
     (length (repr s) ≤ fuel)%nat →
     ∃ b s', get fuel x y s = Ret (b, s')).
Proof.
  intros Hwf%reachable_wf. split_and!.
  - intros fuel a n s' Hs.
    destruct (size_Ret_inv _ _ _ _ _ Hwf Hs) as (r & Hf & Hr & ->).
    pose proof (wf_find _ _ _ _ _ Hwf Hf) as Hwf'.
    destruct (find_Ret_inv _ _ _ _ _ Hf) as (p' & -> & _ & Hlen & Hrep & _).
    pose proof (rep_of_idem _ _ _ Hr) as Hrr.
    split.
    { exists r. split; [done|]. split; [done|]. split; [by apply is_rep_at|].
      split; [by apply wf_size|]. split; [done|].
      pose proof (members_rep_nonempty _ _ Hrr). lia. }
    split.
    { rewrite size_of_spec by done. by rewrite (proj2 (find_rep_rep_of s a r) Hr). }
    split; [done|]. split; [done|]. by apply observations_ext.
  - intros fuel x y b s' Hg.
    destruct (get_Ret_inv _ _ _ _ _ _ Hg) as (ru & s1 & rv & H1 & H2 & Hu & Hv & ->).
    pose proof (wf_find _ _ _ _ _ Hwf H1) as Hwf1.
    pose proof (wf_find _ _ _ _ _ Hwf1 H2) as Hwf2.
    destruct (find_Ret_inv _ _ _ _ _ H1) as (p1 & -> & _ & Hlen1 & Hrep1 & _).
    destruct (find_Ret_inv _ _ _ _ _ H2) as (p2 & -> & _ & Hlen2 & Hrep2 & _).
    simpl in *. split.
    { exists ru, rv. split; [done|]. split; [done|].
      split; [by eapply rep_of_fixed|]. split; [by eapply rep_of_fixed|done]. }
    split.
    { rewrite same_spec, (proj2 (find_rep_rep_of s x ru) Hu),
        (proj2 (find_rep_rep_of s y rv) Hv). done. }
    split; [done|]. split; [done|].
    apply observations_ext; try done; simpl; [congruence|].
    intros a r. by rewrite Hrep2, Hrep1.
  - intros fuel a Ha Hfuel. destruct (wf_rep _ Hwf a Ha) as [r Hr].
    destruct (size_total fuel _ _ _ Hwf Hr Hfuel) as (s' & Hs & _). by eexists _, _.
  - intros fuel x y Hx Hy Hfuel.
    destruct (wf_rep _ Hwf x Hx) as [rx Hrx]. destruct (wf_rep _ Hwf y Hy) as [ry Hry].
    destruct (get_total fuel _ _ _ _ _ Hrx Hry Hfuel) as (s' & Hg). by eexists _, _.
Qed.

Lemma size_and_get_are_transparent_witness :
  reachable scenario ∧
  size 5 3 scenario = Ret (4, scenario_flat) ∧
  get 5 3 4 scenario = Ret (false, scenario_flat) ∧
  ((∃ r, find 5 3 scenario = Ret (r, scenario_flat) ∧
      rep_of (repr scenario) 3 r ∧ at_ (repr scenario) r = Some r ∧
      at_ (component_size scenario) r = Some 4 ∧
      4 = Z.of_nat (length (members scenario r)) ∧ 1 ≤ 4) ∧
   size_of scenario 3 = Some 4 ∧
   component_size scenario_flat = component_size scenario ∧
   additionalInfo scenario_flat = additionalInfo scenario ∧
   (∀ u, find_rep scenario_flat u = find_rep scenario u) ∧
   (∀ u, size_of scenario_flat u = size_of scenario u) ∧
   (∀ u v, same scenario_flat u v = same scenario u v) ∧
   count_islands scenario_flat = count_islands scenario) ∧
  ((∃ rx ry, rep_of (repr scenario) 3 rx ∧ rep_of (repr scenario) 4 ry ∧
      at_ (repr scenario) rx = Some rx ∧ at_ (repr scenario) ry = Some ry ∧
      false = bool_decide (rx = ry)) ∧
   same scenario 3 4 = Some false ∧
   component_size scenario_flat = component_size scenario ∧
   additionalInfo scenario_flat = additionalInfo scenario ∧
   (∀ u, find_rep scenario_flat u = find_rep scenario u) ∧
   (∀ u, size_of scenario_flat u = size_of scenario u) ∧
   (∀ u v, same scenario_flat u v = same scenario u v) ∧
   count_islands scenario_flat = count_islands scenario).
Proof.
  destruct (size_and_get_are_transparent scenario scenario_reachable)
    as (Hsize & Hget & _ & _).
  split; [apply scenario_reachable|]. split; [reflexivity|]. split; [reflexivity|].
  split.
  - apply (Hsize 5%nat 3 4 scenario_flat eq_refl).
  - apply (Hget 5%nat 3 4 false scenario_flat eq_refl).
Defined.

Lemma filter_all {A : Type} (P : A → Prop) `{!∀ x, Decision (P x)} (l : list A) :
  (∀ x, x ∈ l → P x) → filter P l = l.
Proof.
  induction l as [|x l IH]; intros Hall; [done|].
  rewrite filter_cons_True by (apply Hall; left).
  f_equal. apply IH. intros y Hy. apply Hall. by right.
Qed.

Lemma reaches_on_path p k a r : reaches p k a r → on_path p a r.
Proof. induction 1; [constructor|by econstructor]. Qed.

Lemma at_insert_id {A : Type} (v : list A) i x :
  at_ v i = Some x → <[Z.to_nat i := x]> v = v.
Proof.
  unfold at_. case_bool_decide; [|done]. apply list_insert_id.
Qed.

Lemma find_representative fuel r s :
  at_ (repr s) r = Some r → find (S fuel) r s = Ret (r, s).
Proof.
  intros Hr. rewrite find_S, (vread_Some _ _ _ Hr), bind_Ret.
  by rewrite bool_decide_eq_true_2.
Qed.

(** X4.  One [find] is enough to flatten a walk: once [find a] has
    returned [r], a further [find a] returns [r] within two calls of the
    recursion and leaves the structure exactly as it is, and so does
    [find r], within one. *)
Theorem find_converges fuel a s r s' fuel' :
  find fuel a s = Ret (r, s') →
  find (S (S fuel')) a s' = Ret (r, s') ∧
  find (S fuel') r s' = Ret (r, s').
Proof.
  intros Hf.
  destruct (find_Ret_inv _ _ _ _ _ Hf) as (p' & -> & [k Hk] & _ & _ & Hpath & _).
  assert (at_ p' a = Some r) as Ha by (apply Hpath; constructor).
  assert (at_ p' r = Some r) as Hr by (apply Hpath; by eapply reaches_on_path).
  assert (∀ f, find (S f) r (set_repr s p') = Ret (r, set_repr s p')) as Hroot.
  { intros f. by apply find_representative. }
  split; [|apply Hroot].
  destruct (decide (r = a)) as [->|Hne]; [apply Hroot|].
  rewrite find_S. simpl repr. rewrite (vread_Some _ _ _ Ha), bind_Ret.
  rewrite bool_decide_eq_false_2 by done.
  rewrite Hroot, bind_Ret. simpl repr.
  rewrite (vwrite_Some _ _ _ _ Ha), bind_Ret. simpl.
  rewrite (at_insert_id _ _ _ Ha), (vread_Some _ _ _ Ha), bind_Ret.
  done.
Qed.

Lemma find_converges_witness :
  find 5 3 scenario = Ret (0, scenario_flat) ∧
  find 2 3 scenario_flat = Ret (0, scenario_flat) ∧
  find 1 0 scenario_flat = Ret (0, scenario_flat).
Proof.
  split; [reflexivity|].
  apply (find_converges 5 3 scenario 0 scenario_flat 0 eq_refl).
Defined.

(** X5.  The constructor, given a count [n] between 0 and [INT_MAX],
    builds [n] singletons: [count_islands] returns [n], every element is
    its own representative, every [size] is 1, and [get u v] holds
    exactly when [u = v]. *)
Theorem ctor_builds_singletons n s :
  0 ≤ n ≤ INT_MAX →
  union_find_ctor n = Ret s →
  Z.of_nat (length (repr s)) = n ∧
  count_islands s = Ret n ∧
  ∀ u v, 0 ≤ u < n → 0 ≤ v < n →
    find_rep s u = Some u ∧
    size_of s u = Some 1 ∧
    same s u v = Some (bool_decide (u = v)).
Proof.
  intros Hn Hc.
  assert (wf s) as Hwf.
  { eapply wf_ctor; [|done]. unfold is_int, INT_MIN, INT_MAX in *. lia. }
  rewrite union_find_ctor_eq in Hc. injection Hc as <-.
  assert (∀ u, 0 ≤ u < n →
    find_rep {| component_size := replicate (Z.to_nat n) 1; repr := seqZ 0 n;
                additionalInfo := (λ j, (j, j)) <$> seqZ 0 n |} u = Some u) as Hfr.
  { intros u Hu. apply find_rep_rep_of. simpl. by apply rep_of_seqZ. }
  split_and!.
  - simpl. rewrite length_seqZ. lia.
  - rewrite count_islands_representatives by done. f_equal.
    unfold representatives, elements. simpl. rewrite length_seqZ, Z2Nat.id by lia.
    rewrite filter_all; [rewrite length_seqZ; lia|].
    intros r Hr%elem_of_seqZ. apply at_seqZ. lia.
  - intros u v Hu Hv. split_and!.
    + by apply Hfr.
    + rewrite size_of_at by done. rewrite Hfr by done. simpl.
      unfold at_. rewrite bool_decide_eq_true_2 by lia.
      by rewrite lookup_replicate_2 by lia.
    + rewrite same_spec, !Hfr by done. done.
Qed.

Lemma ctor_builds_singletons_witness :
  0 ≤ 4 ≤ INT_MAX ∧
  union_find_ctor 4 = Ret four ∧
  Z.of_nat (length (repr four)) = 4 ∧
  count_islands four = Ret 4 ∧
  ∀ u v, 0 ≤ u < 4 → 0 ≤ v < 4 →
    find_rep four u = Some u ∧
    size_of four u = Some 1 ∧
    same four u v = Some (bool_decide (u = v)).
Proof.
  assert (0 ≤ 4 ≤ INT_MAX) as Hn by (unfold INT_MAX; lia).
  split; [apply Hn|]. split; [reflexivity|].
  apply (ctor_builds_singletons 4 four Hn eq_refl).
Defined.

(** ** What [merge] does to the observations *)

(** After [merge x y] the representative of an element is the common new
    representative [w] if it was one of the two merged ones, and is what
    it was otherwise; sizes and bounds change at the merged
    representatives only. *)
Lemma merge_effect s fuel x y s' rx ry :
  wf s → merge fuel x y s = Ret s' →
  rep_of (repr s) x rx → rep_of (repr s) y ry →
  ∃ w, (w = rx ∨ w = ry) ∧ wf s' ∧
    length (repr s') = length (repr s) ∧
    (∀ a, find_rep s' a =
       (λ r, if decide (r = rx ∨ r = ry) then w else r) <$> find_rep s a) ∧
    (∀ r, r ≠ rx → r ≠ ry →
       at_ (component_size s') r = at_ (component_size s) r) ∧
    (∀ i, i ≠ w → at_ (additionalInfo s') i = at_ (additionalInfo s) i) ∧
    (rx = ry →
       component_size s' = component_size s ∧ additionalInfo s' = additionalInfo s) ∧
    (rx ≠ ry → ∀ cx cy ix iy,
       at_ (component_size s) rx = Some cx → at_ (component_size s) ry = Some cy →
       at_ (additionalInfo s) rx = Some ix → at_ (additionalInfo s) ry = Some iy →
       at_ (component_size s') w = Some (cx + cy) ∧
       at_ (additionalInfo s') w = Some (Z.min ix.1 iy.1, Z.max ix.2 iy.2)).
Proof.
  intros Hwf Hm Hx Hy.
  destruct (merge_Ret_inv _ _ _ _ _ Hwf Hm) as (rx' & ry' & Hx' & Hy' & Hwf' & Hlen & Hpost).
  assert (rx' = rx) as -> by (by eapply rep_of_fun).
  assert (ry' = ry) as -> by (by eapply rep_of_fun).
  destruct (decide (rx = ry)) as [<-|Hne].
  - destruct Hpost as (Ecs & Einfo & Hrep).
    exists rx. split; [by left|]. split; [done|]. split; [done|]. split.
    { intros a. rewrite (find_rep_ext s s' a) by (intros r; apply Hrep).
      destruct (find_rep s a) as [r|]; [|done]. simpl. f_equal.
      destruct (decide _) as [[->| ->]|]; done. }
    split; [intros; by rewrite Ecs|]. split; [intros; by rewrite Einfo|].
    split; [done|]. intros Hne. by destruct Hne.
  - destruct Hpost as (cx & cy & ix & iy & win & lose & Hcx & Hcy & Hix & Hiy & Hswap
                       & Ecs & Einfo & _ & _ & Hrep).
    pose proof (rep_of_idem _ _ _ Hx) as Hrx. pose proof (rep_of_idem _ _ _ Hy) as Hry.
    pose proof (at_Some_range _ _ _ Hcx) as Hrxr. pose proof (at_Some_range _ _ _ Hcy) as Hryr.
    pose proof (wf_size_len _ Hwf) as Hl1. pose proof (wf_info_len _ Hwf) as Hl2.
    assert (win ≠ lose ∧ (win = rx ∨ win = ry) ∧ (lose = rx ∨ lose = ry)
            ∧ 0 ≤ win < Z.of_nat (length (component_size s))
            ∧ 0 ≤ lose < Z.of_nat (length (component_size s))
            ∧ rep_of (repr s) win win ∧ rep_of (repr s) lose lose)
      as (Hwl & Hw & Hl & Hwr & Hlr & Hwrep & Hlrep).
    { destruct (merge_post_swap_cases _ _ _ _ _ _ Hswap) as [(_ & -> & ->)|(_ & -> & ->)];
        split_and!; first [lia|auto]. }
    exists win. split_and!; try done.
    + intros a. destruct (find_rep s a) as [r|] eqn:Ha; simpl.
      * apply find_rep_rep_of in Ha. apply find_rep_rep_of, Hrep.
        destruct (decide (r = lose)) as [->|Hrl].
        -- right. split; [done|]. rewrite decide_True; [done|]. tauto.
        -- left. destruct (decide (r = rx ∨ r = ry)) as [Hr|Hr].
           ++ assert (r = win) as -> by (destruct Hr, Hw, Hl; congruence). done.
           ++ done.
      * destruct (find_rep s' a) as [r'|] eqn:Ha'; [|done].
        apply find_rep_rep_of, Hrep in Ha'.
        destruct Ha' as [[Ha' _]|[Ha' _]]; apply find_rep_rep_of in Ha'; congruence.
    + intros r Hr1 Hr2. rewrite Ecs.
      rewrite !at_insert_ne; [done|lia| |lia|]; destruct Hw, Hl; congruence.
    + intros i Hi. rewrite Einfo. by rewrite at_insert_ne by (done || lia).
    + intros _ cx' cy' ix' iy' Hcx' Hcy' Hix' Hiy'. simplify_eq. split.
      * rewrite Ecs, at_insert_ne by (done || lia). by apply at_insert_eq.
      * rewrite Einfo. apply at_insert_eq. lia.
Qed.

Lemma same_merged s u v :
  same s u v = ru ← find_rep s u; rv ← find_rep s v; Some (bool_decide (ru = rv)).
Proof. apply same_spec. Qed.

Lemma same_x_true s u x rx :
  rep_of (repr s) x rx → same s u x = Some true ↔ rep_of (repr s) u rx.
Proof.
  intros Hx. rewrite same_true. split.
  - intros (r & Hu & Hx'). by rewrite (rep_of_fun _ _ _ _ Hx Hx').
  - intros Hu. by exists rx.
Qed.

Lemma same_true_sym s u v : same s u v = Some true → same s v u = Some true.
Proof. rewrite !same_true. intros (r & ? & ?). by exists r. Qed.

(** The partition after [merge x y], in terms of the one before. *)
Lemma merge_same_true s fuel x y s' :
  wf s → merge fuel x y s = Ret s' →
  ∀ u v, same s' u v = Some true ↔
    same s u v = Some true ∨
    (same s u x = Some true ∧ same s y v = Some true) ∨
    (same s u y = Some true ∧ same s x v = Some true).
Proof.
  intros Hwf Hm u v.
  destruct (merge_Ret_inv _ _ _ _ _ Hwf Hm) as (rx & ry & Hx & Hy & _).
  destruct (merge_effect _ _ _ _ _ _ _ Hwf Hm Hx Hy) as (w & Hw & _ & _ & Hfr & _).
  rewrite (same_x_true s u x rx), (same_x_true s u y ry) by done.
  assert (same s y v = Some true ↔ rep_of (repr s) v ry) as ->.
  { split; [intros H%same_true_sym|intros H; apply same_true_sym];
      by apply (same_x_true s v y ry). }
  assert (same s x v = Some true ↔ rep_of (repr s) v rx) as ->.
  { split; [intros H%same_true_sym|intros H; apply same_true_sym];
      by apply (same_x_true s v x rx). }
  rewrite (same_true s' u v), (same_true s u v).
  assert (∀ a r, rep_of (repr s') a r ↔
            ∃ r0, rep_of (repr s) a r0 ∧ r = if decide (r0 = rx ∨ r0 = ry) then w else r0)
    as Hrep.
  { intros a r. rewrite <-find_rep_rep_of, Hfr. split.
    - destruct (find_rep s a) as [r0|] eqn:Ha; [|done]. simpl. intros [= <-].
      exists r0. split; [by apply find_rep_rep_of|done].
    - intros (r0 & Ha%find_rep_rep_of & ->). by rewrite Ha. }
  split.
  - intros (r & (ru & Hu & Eu)%Hrep & (rv & Hv & Ev)%Hrep).
    destruct (decide (ru = rx ∨ ru = ry)) as [Hru|Hru],
             (decide (rv = rx ∨ rv = ry)) as [Hrv|Hrv]; subst r.
    + destruct Hru as [->| ->], Hrv as [->| ->].
      * left. by exists rx.
      * right; left. done.
      * right; right. done.
      * left. by exists ry.
    + subst rv. destruct Hrv. destruct Hw; [by left|by right].
    + subst ru. destruct Hru. destruct Hw; [by left|by right].
    + subst rv. left. by exists ru.
  - assert (∀ a, rep_of (repr s) a rx → rep_of (repr s') a w) as Hjx.
    { intros a Ha. apply Hrep. exists rx. split; [done|]. by rewrite decide_True by (by left). }
    assert (∀ a, rep_of (repr s) a ry → rep_of (repr s') a w) as Hjy.
    { intros a Ha. apply Hrep. exists ry. split; [done|]. by rewrite decide_True by (by right). }
    intros [(r & Hu & Hv)|[[Hu Hv]|[Hu Hv]]].
    + exists (if decide (r = rx ∨ r = ry) then w else r).
      split; apply Hrep; by exists r.
    + exists w. split; [by apply Hjx|by apply Hjy].
    + exists w. split; [by apply Hjy|by apply Hjx].
Qed.

(** The sizes after [merge x y], in terms of the sizes before. *)
Lemma merge_size_of s fuel x y s' rx ry cx cy :
  wf s → merge fuel x y s = Ret s' →
  rep_of (repr s) x rx → rep_of (repr s) y ry →
  at_ (component_size s) rx = Some cx → at_ (component_size s) ry = Some cy →
  ∀ u, size_of s' u =
    r ← find_rep s u;
    if decide (r = rx ∨ r = ry)
    then Some (if decide (rx = ry) then cx else cx + cy)
    else at_ (component_size s) r.
Proof.
  intros Hwf Hm Hx Hy Hcx Hcy u.
  destruct (merge_effect _ _ _ _ _ _ _ Hwf Hm Hx Hy)
    as (w & Hw & Hwf' & _ & Hfr & Hother & _ & Hsame & Hdiff).
  rewrite size_of_at, Hfr by done.
  destruct (find_rep s u) as [r|]; [|done]. simpl.
  destruct (decide (r = rx ∨ r = ry)) as [Hr|Hr].
  - destruct (decide (rx = ry)) as [<-|Hne].
    + destruct (Hsame eq_refl) as [-> _]. by destruct Hw as [->| ->].
    + destruct (wf_info _ Hwf rx ltac:(by eapply rep_of_idem)) as (? & ? & Hix & _).
      destruct (wf_info _ Hwf ry ltac:(by eapply rep_of_idem)) as (? & ? & Hiy & _).
      by destruct (Hdiff Hne _ _ _ _ Hcx Hcy Hix Hiy) as [-> _].
  - apply Hother; intros ->; apply Hr; [by left|by right].
Qed.

(** The number of components after [merge x y]. *)
Lemma merge_count s fuel x y s' rx ry :
  wf s → merge fuel x y s = Ret s' →
  rep_of (repr s) x rx → rep_of (repr s) y ry →
  length (representatives s) =
    (length (representatives s') + (if decide (rx = ry) then 0 else 1))%nat.
Proof.
  intros Hwf Hm Hx Hy.
  destruct (merge_Ret_inv _ _ _ _ _ Hwf Hm) as (rx' & ry' & Hx' & Hy' & Hwf' & Hlen & Hpost).
  assert (rx' = rx) as -> by (by eapply rep_of_fun).
  assert (ry' = ry) as -> by (by eapply rep_of_fun).
  destruct (decide (rx = ry)) as [<-|Hne].
  - destruct Hpost as (_ & _ & Hrep).
    rewrite (representatives_ext s s'); [lia|done|]. intros r. apply Hrep.
  - destruct Hpost as (cx & cy & ix & iy & win & lose & _ & _ & _ & _ & Hswap
                       & _ & _ & _ & _ & Hrep).
    pose proof (rep_of_idem _ _ _ Hx) as Hrx. pose proof (rep_of_idem _ _ _ Hy) as Hry.
    assert (win ≠ lose ∧ rep_of (repr s) win win ∧ rep_of (repr s) lose lose)
      as (Hwl & Hw & Hl).
    { destruct (merge_post_swap_cases _ _ _ _ _ _ Hswap) as [(_ & -> & ->)|(_ & -> & ->)]; done. }
    rewrite (representatives_remove s s' lose); [lia|done|done|].
    intros r. rewrite Hrep. split; [|by left].
    intros [?|[Hr ->]]; [done|]. destruct Hwl. by eapply rep_of_fun.
Qed.

Lemma same_ext_true s1 s2 :
  wf s1 → wf s2 → length (repr s1) = length (repr s2) →
  (∀ u v, same s1 u v = Some true ↔ same s2 u v = Some true) →
  ∀ u v, same s1 u v = same s2 u v.
Proof.
  intros Hwf1 Hwf2 Hlen Htrue u v.
  destruct (same s1 u v) as [b1|] eqn:H1.
  - destruct (same_Some_range _ _ _ _ H1) as [Hu Hv].
    destruct (same_valid s2 u v Hwf2 ltac:(lia) ltac:(lia)) as [b2 H2]. rewrite H2.
    specialize (Htrue u v). rewrite H1, H2 in Htrue.
    destruct b1, b2; try done; destruct Htrue as [Hl Hr].
    + by specialize (Hl eq_refl).
    + by specialize (Hr eq_refl).
  - destruct (same s2 u v) as [b2|] eqn:H2; [|done].
    destruct (same_Some_range _ _ _ _ H2) as [Hu Hv].
    destruct (same_valid s1 u v Hwf1 ltac:(lia) ltac:(lia)) as [b1 H1']. congruence.
Qed.

(** X6.  After a returning [merge x y] the two arguments are together,
    and two elements are together exactly when they were before or when
    one was with [x] and the other with [y]: [merge] joins the two
    components and separates nothing. *)
Theorem merge_joins_components s fuel x y s' :
  reachable s →
  merge fuel x y s = Ret s' →
  same s' x y = Some true ∧
  (∀ u v, same s u v = Some true → same s' u v = Some true) ∧
  (∀ u v, same s' u v = Some true ↔
     same s u v = Some true ∨
     (same s u x = Some true ∧ same s y v = Some true) ∨
     (same s u y = Some true ∧ same s x v = Some true)).
Proof.
  intros Hwf%reachable_wf Hm.
  pose proof (merge_same_true _ _ _ _ _ Hwf Hm) as Hchar.
  destruct (merge_Ret_inv _ _ _ _ _ Hwf Hm) as (rx & ry & Hx & Hy & _).
  split_and!.
  - apply Hchar. right; left. split; apply same_true; [by exists rx|by exists ry].
  - intros u v Huv. apply Hchar. by left.
  - done.
Qed.

Lemma merge_joins_components_witness :
  reachable scenario ∧
  merge 5 4 3 scenario = Ret scenario_merged ∧
  same scenario_merged 4 3 = Some true ∧
  (∀ u v, same scenario u v = Some true → same scenario_merged u v = Some true) ∧
  (∀ u v, same scenario_merged u v = Some true ↔
     same scenario u v = Some true ∨
     (same scenario u 4 = Some true ∧ same scenario 3 v = Some true) ∨
     (same scenario u 3 = Some true ∧ same scenario 4 v = Some true)).
Proof.
  split; [apply scenario_reachable|]. split; [reflexivity|].
  apply (merge_joins_components scenario 5 4 3 scenario_merged scenario_reachable eq_refl).
Defined.

(** X7.  After [merge x y] has joined two different components of sizes
    [cx] and [cy], [size] returns [cx + cy] on every element of either
    and what it returned before on every other element. *)
Theorem merge_adds_sizes s fuel x y s' cx cy :
  reachable s →
  merge fuel x y s = Ret s' →
  same s x y = Some false →
  size_of s x = Some cx → size_of s y = Some cy →
  ∀ u, size_of s' u =
    if decide (same s u x = Some true ∨ same s u y = Some true)
    then Some (cx + cy)
    else size_of s u.
Proof.
  intros Hwf%reachable_wf Hm Hsame Hsx Hsy u.
  destruct (merge_Ret_inv _ _ _ _ _ Hwf Hm) as (rx & ry & Hx & Hy & _).
  pose proof (proj2 (find_rep_rep_of s x rx) Hx) as Hfx.
  pose proof (proj2 (find_rep_rep_of s y ry) Hy) as Hfy.
  rewrite size_of_at, Hfx in Hsx by done. rewrite size_of_at, Hfy in Hsy by done.
  simpl in Hsx, Hsy.
  assert (rx ≠ ry) as Hne.
  { rewrite same_spec, Hfx, Hfy in Hsame. simpl in Hsame.
    intros ->. by rewrite bool_decide_eq_true_2 in Hsame. }
  rewrite (merge_size_of _ _ _ _ _ _ _ _ _ Hwf Hm Hx Hy Hsx Hsy).
  pose proof (same_x_true s u x rx Hx) as Hux. pose proof (same_x_true s u y ry Hy) as Huy.
  rewrite <-find_rep_rep_of in Hux, Huy.
  rewrite size_of_at by done.
  destruct (find_rep s u) as [r|] eqn:Hu; simpl.
  - rewrite (decide_False (P := rx = ry)) by done.
    destruct (decide (r = rx ∨ r = ry)) as [Hr|Hr].
    + rewrite decide_True; [done|].
      destruct Hr as [->| ->]; [left; by apply Hux|right; by apply Huy].
    + rewrite decide_False; [done|].
      intros [[= ->]%Hux|[= ->]%Huy]; apply Hr; [by left|by right].
  - rewrite decide_False; [done|]. intros [?%Hux|?%Huy]; done.
Qed.

Lemma merge_adds_sizes_witness :
  reachable scenario ∧
  merge 5 4 3 scenario = Ret scenario_merged ∧
  same scenario 4 3 = Some false ∧
  size_of scenario 4 = Some 1 ∧ size_of scenario 3 = Some 4 ∧
  ∀ u, size_of scenario_merged u =
    if decide (same scenario u 4 = Some true ∨ same scenario u 3 = Some true)
    then Some (1 + 4)
    else size_of scenario u.
Proof.
  split; [apply scenario_reachable|]. split; [reflexivity|]. split; [reflexivity|].
  split; [reflexivity|]. split; [reflexivity|].
  apply (merge_adds_sizes scenario 5 4 3 scenario_merged 1 4
           scenario_reachable eq_refl eq_refl eq_refl eq_refl).
Defined.

(** X8.  After [merge x y] has joined two different components, the
    bounds stored at their common representative are the smaller of the
    two minima and the larger of the two maxima, and no other entry of
    [additionalInfo] has changed. *)
Theorem merge_combines_bounds s fuel x y s' rx ry ix iy :
  reachable s →
  merge fuel x y s = Ret s' →
  find_rep s x = Some rx → find_rep s y = Some ry → rx ≠ ry →
  at_ (additionalInfo s) rx = Some ix →
  at_ (additionalInfo s) ry = Some iy →
  ∃ w, (w = rx ∨ w = ry) ∧
    find_rep s' x = Some w ∧ find_rep s' y = Some w ∧
    at_ (additionalInfo s') w = Some (Z.min ix.1 iy.1, Z.max ix.2 iy.2) ∧
    ∀ i, i ≠ w → at_ (additionalInfo s') i = at_ (additionalInfo s) i.
Proof.
  intros Hwf%reachable_wf Hm Hfx Hfy Hne Hix Hiy.
  pose proof (proj1 (find_rep_rep_of s x rx) Hfx) as Hx.
  pose proof (proj1 (find_rep_rep_of s y ry) Hfy) as Hy.
  destruct (merge_effect _ _ _ _ _ _ _ Hwf Hm Hx Hy)
    as (w & Hw & Hwf' & _ & Hfr & _ & Hinfo & _ & Hdiff).
  pose proof (wf_size _ Hwf rx ltac:(by eapply rep_of_idem)) as Hcx.
  pose proof (wf_size _ Hwf ry ltac:(by eapply rep_of_idem)) as Hcy.
  destruct (Hdiff Hne _ _ _ _ Hcx Hcy Hix Hiy) as [_ Hiw].
  exists w. split_and!; try done.
  - rewrite Hfr, Hfx. simpl. by rewrite decide_True by (by left).
  - rewrite Hfr, Hfy. simpl. by rewrite decide_True by (by right).
Qed.

Lemma merge_combines_bounds_witness :
  reachable scenario ∧
  merge 5 4 3 scenario = Ret scenario_merged ∧
  find_rep scenario 4 = Some 4 ∧ find_rep scenario 3 = Some 0 ∧ 4 ≠ 0 ∧
  at_ (additionalInfo scenario) 4 = Some (4, 4) ∧
  at_ (additionalInfo scenario) 0 = Some (0, 3) ∧
  ∃ w, (w = 4 ∨ w = 0) ∧
    find_rep scenario_merged 4 = Some w ∧ find_rep scenario_merged 3 = Some w ∧
    at_ (additionalInfo scenario_merged) w
      = Some (Z.min (4, 4).1 (0, 3).1, Z.max (4, 4).2 (0, 3).2) ∧
    ∀ i, i ≠ w → at_ (additionalInfo scenario_merged) i = at_ (additionalInfo scenario) i.
Proof.
  assert (4 ≠ 0) as Hne by lia.
  split; [apply scenario_reachable|]. split; [reflexivity|]. split; [reflexivity|].
  split; [reflexivity|]. split; [apply Hne|]. split; [reflexivity|]. split; [reflexivity|].
  apply (merge_combines_bounds scenario 5 4 3 scenario_merged 4 0 (4, 4) (0, 3)
           scenario_reachable eq_refl eq_refl eq_refl Hne eq_refl eq_refl).
Defined.

(** X9.  The order of the arguments of [merge] cannot be observed:
    [merge x y] and [merge y x] lead to structures on which [get],
    [size] and [count_islands] answer alike and which store the same
    bounds at the representative of every element, though the
    representative itself may differ. *)
Theorem merge_order_is_unobservable s fuel fuel' x y s1 s2 :
  reachable s →
  merge fuel x y s = Ret s1 →
  merge fuel' y x s = Ret s2 →
  (∀ u v, same s1 u v = same s2 u v) ∧
  (∀ u, size_of s1 u = size_of s2 u) ∧
  count_islands s1 = count_islands s2 ∧
  (∀ u r1 r2, find_rep s1 u = Some r1 → find_rep s2 u = Some r2 →
     at_ (additionalInfo s1) r1 = at_ (additionalInfo s2) r2).
Proof.
  intros Hwf%reachable_wf Hm1 Hm2.
  destruct (merge_Ret_inv _ _ _ _ _ Hwf Hm1) as (rx & ry & Hx & Hy & _).
  destruct (merge_effect _ _ _ _ _ _ _ Hwf Hm1 Hx Hy)
    as (w1 & Hw1 & Hwf1 & Hlen1 & Hfr1 & _ & Hinfo1 & Hsame1 & Hdiff1).
  destruct (merge_effect _ _ _ _ _ _ _ Hwf Hm2 Hy Hx)
    as (w2 & Hw2 & Hwf2 & Hlen2 & Hfr2 & _ & Hinfo2 & Hsame2 & Hdiff2).
  pose proof (wf_size _ Hwf rx ltac:(by eapply rep_of_idem)) as Hcx.
  pose proof (wf_size _ Hwf ry ltac:(by eapply rep_of_idem)) as Hcy.
  destruct (wf_info _ Hwf rx ltac:(by eapply rep_of_idem)) as (lox & hix & Hix & _).
  destruct (wf_info _ Hwf ry ltac:(by eapply rep_of_idem)) as (loy & hiy & Hiy & _).
  split_and!.
  - apply same_ext_true; [done|done|congruence|]. intros u v.
    rewrite (merge_same_true _ _ _ _ _ Hwf Hm1), (merge_same_true _ _ _ _ _ Hwf Hm2). tauto.
  - intros u.
    rewrite (merge_size_of _ _ _ _ _ _ _ _ _ Hwf Hm1 Hx Hy Hcx Hcy).
    rewrite (merge_size_of _ _ _ _ _ _ _ _ _ Hwf Hm2 Hy Hx Hcy Hcx).
    destruct (find_rep s u) as [r|]; [|done]. simpl.
    destruct (decide (r = rx ∨ r = ry)) as [Hr|Hr].
    + rewrite (decide_True (P := r = ry ∨ r = rx)) by (destruct Hr; auto). f_equal.
      destruct (decide (rx = ry)) as [->|Hne].
      * by rewrite decide_True.
      * rewrite decide_False by congruence. lia.
    + by rewrite (decide_False (P := r = ry ∨ r = rx)) by (intros []; apply Hr; auto).
  - rewrite !count_islands_representatives by done. do 2 f_equal.
    pose proof (merge_count _ _ _ _ _ _ _ Hwf Hm1 Hx Hy) as Hc1.
    pose proof (merge_count _ _ _ _ _ _ _ Hwf Hm2 Hy Hx) as Hc2.
    destruct (decide (rx = ry)) as [->|Hne].
    + rewrite decide_True in Hc2 by done. lia.
    + rewrite decide_False in Hc2 by congruence. lia.
  - intros u r1 r2. rewrite Hfr1, Hfr2.
    destruct (find_rep s u) as [r|]; [|done]. simpl.
    destruct (decide (rx = ry)) as [<-|Hne].
    + destruct (Hsame1 eq_refl) as [_ ->]. destruct (Hsame2 eq_refl) as [_ ->].
      assert (w1 = rx) as -> by (by destruct Hw1).
      assert (w2 = rx) as -> by (by destruct Hw2).
      destruct (decide (r = rx ∨ r = rx)) as [Hr|Hr]; congruence.
    + destruct (Hdiff1 Hne _ _ _ _ Hcx Hcy Hix Hiy) as [_ Hi1].
      destruct (Hdiff2 ltac:(congruence) _ _ _ _ Hcy Hcx Hiy Hix) as [_ Hi2].
      destruct (decide (r = rx ∨ r = ry)) as [Hr|Hr].
      * rewrite (decide_True (P := r = ry ∨ r = rx)) by (destruct Hr; auto).
        intros [= <-] [= <-].
        rewrite Hi1, Hi2. simpl. by rewrite Z.min_comm, Z.max_comm.
      * rewrite (decide_False (P := r = ry ∨ r = rx)) by (intros []; apply Hr; auto).
        intros [= <-] [= <-].
        rewrite Hinfo1, Hinfo2; [done| |].
        -- intros ->. apply Hr. destruct Hw2; [by right|by left].
        -- intros ->. apply Hr. destruct Hw1; [by left|by right].
Qed.

Lemma merge_order_is_unobservable_witness :
  reachable four ∧
  merge 4 2 1 four =
    Ret {| component_size := [1; 0; 2; 1]; repr := [0; 2; 2; 3];
           additionalInfo := [(0, 0); (1, 1); (1, 2); (3, 3)] |} ∧
  merge 4 1 2 four =
    Ret {| component_size := [1; 2; 0; 1]; repr := [0; 1; 1; 3];
           additionalInfo := [(0, 0); (1, 2); (2, 2); (3, 3)] |} ∧
  (∀ u v,
     same {| component_size := [1; 0; 2; 1]; repr := [0; 2; 2; 3];
             additionalInfo := [(0, 0); (1, 1); (1, 2); (3, 3)] |} u v
     = same {| component_size := [1; 2; 0; 1]; repr := [0; 1; 1; 3];
               additionalInfo := [(0, 0); (1, 2); (2, 2); (3, 3)] |} u v) ∧
  (∀ u,
     size_of {| component_size := [1; 0; 2; 1]; repr := [0; 2; 2; 3];
                additionalInfo := [(0, 0); (1, 1); (1, 2); (3, 3)] |} u
     = size_of {| component_size := [1; 2; 0; 1]; repr := [0; 1; 1; 3];
                  additionalInfo := [(0, 0); (1, 2); (2, 2); (3, 3)] |} u) ∧
  count_islands {| component_size := [1; 0; 2; 1]; repr := [0; 2; 2; 3];
                   additionalInfo := [(0, 0); (1, 1); (1, 2); (3, 3)] |}
  = count_islands {| component_size := [1; 2; 0; 1]; repr := [0; 1; 1; 3];
                     additionalInfo := [(0, 0); (1, 2); (2, 2); (3, 3)] |} ∧
  (∀ u r1 r2,
     find_rep {| component_size := [1; 0; 2; 1]; repr := [0; 2; 2; 3];
                 additionalInfo := [(0, 0); (1, 1); (1, 2); (3, 3)] |} u = Some r1 →
     find_rep {| component_size := [1; 2; 0; 1]; repr := [0; 1; 1; 3];
                 additionalInfo := [(0, 0); (1, 2); (2, 2); (3, 3)] |} u = Some r2 →
     at_ (additionalInfo {| component_size := [1; 0; 2; 1]; repr := [0; 2; 2; 3];
                            additionalInfo := [(0, 0); (1, 1); (1, 2); (3, 3)] |}) r1
     = at_ (additionalInfo {| component_size := [1; 2; 0; 1]; repr := [0; 1; 1; 3];
                              additionalInfo := [(0, 0); (1, 2); (2, 2); (3, 3)] |}) r2).
Proof.
  split; [apply four_reachable|]. split; [reflexivity|]. split; [reflexivity|].
  apply (merge_order_is_unobservable four 4 4 2 1 _ _ four_reachable eq_refl eq_refl).
Defined.

(** ** Sequences of merges *)

Lemma joined_ext (R R' : Z → Z → Prop) ms u v :
  (∀ a b, R a b → R' a b) → joined R ms u v → joined R' ms u v.
Proof.
  intros HR. induction 1 as [u v H|x y H|u v _ IH|u v w _ IH1 _ IH2].
  - apply joined_base. by apply HR.
  - by apply joined_pair.
  - by apply joined_sym.
  - by eapply joined_trans.
Qed.

Lemma same_true_trans s u v w :
  same s u v = Some true → same s v w = Some true → same s u w = Some true.
Proof.
  intros (r & Hu & Hv)%same_true (r' & Hv' & Hw)%same_true.
  apply same_true. exists r. split; [done|]. by rewrite (rep_of_fun _ _ _ _ Hv Hv').
Qed.

Lemma same_true_refl s u r : rep_of (repr s) u r → same s u u = Some true.
Proof. intros Hu. apply same_true. by exists r. Qed.

(** After a sequence of merges two elements are together exactly when
    the pairs merged link them, starting from who was together before. *)
Lemma merges_joined fuel ms s s' :
  wf s → merges fuel ms s = Ret s' →
  wf s' ∧ length (repr s') = length (repr s) ∧
  ∀ u v, same s' u v = Some true ↔ joined (λ a b, same s a b = Some true) ms u v.
Proof.
  revert s. induction ms as [|[x y] ms IH]; intros s Hwf Hms.
  - injection Hms as <-. split; [done|]. split; [done|]. intros u v. split.
    + intros H. by apply joined_base.
    + induction 1 as [u v H|a b H|u v _ IH|u v w _ IH1 _ IH2].
      * done.
      * by apply elem_of_nil in H.
      * by apply same_true_sym.
      * by eapply same_true_trans.
  - simpl in Hms. destruct (merge fuel x y s) as [s1| | |] eqn:Hm; try done.
    rewrite bind_Ret in Hms.
    destruct (merge_Ret_inv _ _ _ _ _ Hwf Hm) as (rx & ry & Hx & Hy & Hwf1 & Hlen1 & _).
    destruct (IH s1 Hwf1 Hms) as (Hwf' & Hlen' & Hchar).
    pose proof (merge_same_true _ _ _ _ _ Hwf Hm) as Hstep.
    split; [done|]. split; [congruence|]. intros u v. rewrite Hchar. split.
    + induction 1 as [u v H|a b H|u v _ IH'|u v w _ IH1 _ IH2].
      * apply Hstep in H as [H|[[H1 H2]|[H1 H2]]].
        -- by apply joined_base.
        -- eapply joined_trans; [by apply joined_base|].
           eapply joined_trans; [apply joined_pair; left|by apply joined_base].
        -- eapply joined_trans; [by apply joined_base|].
           eapply joined_trans; [apply joined_sym, joined_pair; left|by apply joined_base].
      * apply joined_pair. by right.
      * by apply joined_sym.
      * by eapply joined_trans.
    + induction 1 as [u v H|a b H|u v _ IH'|u v w _ IH1 _ IH2].
      * apply joined_base, Hstep. by left.
      * apply elem_of_cons in H as [[= -> ->]|H]; [|by apply joined_pair].
        apply joined_base, Hstep. right; left.
        split; by eapply same_true_refl.
      * by apply joined_sym.
      * by eapply joined_trans.
Qed.

(** With the number of elements as fuel, a sequence of merges of valid
    pairs returns. *)
Lemma merges_total fuel ms s :
  wf s → (length (repr s) ≤ fuel)%nat →
  (∀ x y, (x, y) ∈ ms →
     0 ≤ x < Z.of_nat (length (repr s)) ∧ 0 ≤ y < Z.of_nat (length (repr s))) →
  ∃ s', merges fuel ms s = Ret s'.
Proof.
  revert s. induction ms as [|[x y] ms IH]; intros s Hwf Hfuel Hvalid; [by eexists|].
  destruct (Hvalid x y ltac:(left)) as [Hx Hy].
  destruct (wf_rep _ Hwf x Hx) as [rx Hrx]. destruct (wf_rep _ Hwf y Hy) as [ry Hry].
  destruct (merge_total fuel _ _ _ _ _ Hwf Hrx Hry Hfuel) as (s1 & Hm & Hwf1 & Hlen & _).
  simpl. rewrite Hm, bind_Ret. apply IH; [done|lia|].
  intros a b Hab. rewrite Hlen. apply Hvalid. by right.
Qed.

Lemma merges_reachable fuel ms s s' :
  reachable s → merges fuel ms s = Ret s' → reachable s'.
Proof.
  revert s. induction ms as [|[x y] ms IH]; intros s Hs Hms.
  - by injection Hms as <-.
  - simpl in Hms. destruct (merge fuel x y s) as [s1| | |] eqn:Hm; try done.
    eapply IH; [|done]. by eapply reachable_merge.
Qed.

(** X10.  Starting from the constructor, a sequence of [merge] calls on
    valid pairs returns when given the number of elements as fuel, and
    afterwards [get u v] holds exactly when [u] and [v] are elements
    linked by a chain of the merged pairs. *)
Theorem get_decides_connectivity n ms fuel s0 :
  0 ≤ n ≤ INT_MAX →
  (∀ x y, (x, y) ∈ ms → 0 ≤ x < n ∧ 0 ≤ y < n) →
  (Z.to_nat n ≤ fuel)%nat →
  union_find_ctor n = Ret s0 →
  ∃ s, merges fuel ms s0 = Ret s ∧ reachable s ∧
    Z.of_nat (length (repr s)) = n ∧
    ∀ u v, same s u v = Some true ↔ connected n ms u v.
Proof.
  intros Hn Hvalid Hfuel Hc.
  assert (is_int n) as Hint by (unfold is_int, INT_MIN, INT_MAX in *; lia).
  pose proof (reachable_ctor n s0 Hint Hc) as Hreach.
  pose proof (reachable_wf _ Hreach) as Hwf.
  assert (repr s0 = seqZ 0 n) as Hrepr.
  { rewrite union_find_ctor_eq in Hc. by injection Hc as <-. }
  assert (Z.of_nat (length (repr s0)) = n) as Hlen0.
  { rewrite Hrepr, length_seqZ. lia. }
  destruct (merges_total fuel ms s0 Hwf ltac:(lia)) as [s Hms].
  { intros x y Hxy. rewrite Hlen0. by apply Hvalid. }
  destruct (merges_joined _ _ _ _ Hwf Hms) as (_ & Hlen & Hchar).
  exists s. split; [done|]. split; [by eapply merges_reachable|]. split; [congruence|].
  assert (∀ a b, same s0 a b = Some true ↔ a = b ∧ 0 ≤ a < n) as Hbase.
  { intros a b. rewrite same_true, Hrepr. setoid_rewrite rep_of_seqZ. split.
    - intros (r & [Ha ->] & [Hb Hab]). done.
    - intros [-> Ha]. by exists b. }
  intros u v. rewrite Hchar. unfold connected.
  split; apply joined_ext; intros a b; apply Hbase.
Qed.

Lemma get_decides_connectivity_witness :
  0 ≤ 5 ≤ INT_MAX ∧
  (∀ x y, (x, y) ∈ [(0, 1); (2, 3); (1, 2)] → 0 ≤ x < 5 ∧ 0 ≤ y < 5) ∧
  (Z.to_nat 5 ≤ 5)%nat ∧
  union_find_ctor 5 =
    Ret {| component_size := [1; 1; 1; 1; 1]; repr := [0; 1; 2; 3; 4];
           additionalInfo := [(0, 0); (1, 1); (2, 2); (3, 3); (4, 4)] |} ∧
  ∃ s, merges 5 [(0, 1); (2, 3); (1, 2)]
         {| component_size := [1; 1; 1; 1; 1]; repr := [0; 1; 2; 3; 4];
            additionalInfo := [(0, 0); (1, 1); (2, 2); (3, 3); (4, 4)] |} = Ret s ∧
    reachable s ∧
    Z.of_nat (length (repr s)) = 5 ∧
    ∀ u v, same s u v = Some true ↔ connected 5 [(0, 1); (2, 3); (1, 2)] u v.
Proof.
  assert (0 ≤ 5 ≤ INT_MAX) as Hn by (unfold INT_MAX; lia).
  assert (∀ x y, (x, y) ∈ [(0, 1); (2, 3); (1, 2)] → 0 ≤ x < 5 ∧ 0 ≤ y < 5) as Hvalid.
  { intros x y Hxy. repeat (apply elem_of_cons in Hxy as [[= -> ->]|Hxy]; [lia|]).
    by apply elem_of_nil in Hxy. }
  assert (Z.to_nat 5 ≤ 5)%nat as Hfuel by lia.
  split; [apply Hn|]. split; [apply Hvalid|]. split; [apply Hfuel|]. split; [reflexivity|].
  apply (get_decides_connectivity 5 [(0, 1); (2, 3); (1, 2)] 5 _ Hn Hvalid Hfuel eq_refl).
Defined.

(** ** The size heuristic keeps the walks short *)

(** Pointing [a] at its representative lengthens no walk. *)
Lemma reaches_redirect_depth p a r j x y :
  rep_of p a r → reaches p j x y →
  ∃ j', (j' ≤ j)%nat ∧ reaches (<[Z.to_nat a := r]> p) j' x y.
Proof.
  intros Har.
  pose proof (rep_of_range _ _ _ Har) as Ha.
  pose proof (rep_of_fixed _ _ _ Har) as Hr.
  assert (∀ i, at_ (<[Z.to_nat a := r]> p) i = if decide (i = a) then Some r else at_ p i)
    as Hat by (intros; by apply at_insert).
  induction 1 as [x Hx|k x b y Hx Hne H (j' & Hj' & IH)].
  - exists 0%nat. split; [lia|]. constructor. rewrite Hat.
    destruct (decide (x = a)) as [->|]; [|done]. f_equal. by eapply rep_of_root_eq.
  - destruct (decide (x = a)) as [->|Hxa].
    + assert (y = r) as ->.
      { eapply rep_of_fun; [|done]. eapply rep_of_step; [done|by eexists]. }
      assert (r ≠ a) as Hra by (intros ->; congruence).
      exists 1%nat. split; [lia|].
      eapply reaches_step; [by rewrite Hat, decide_True| done |].
      constructor. by rewrite Hat, decide_False.
    + exists (S j'). split; [lia|].
      eapply reaches_step; [by rewrite Hat, decide_False|done|done].
Qed.

(** [find] lengthens no walk. *)
Lemma find_depth s k a r :
  reaches (repr s) k a r →
  ∀ fuel, (k < fuel)%nat →
  ∃ p', find fuel a s = Ret (r, set_repr s p') ∧
    ∀ j x y, reaches (repr s) j x y → ∃ j', (j' ≤ j)%nat ∧ reaches p' j' x y.
Proof.
  induction 1 as [a Ha|k a b r Ha Hne H IH]; intros [|fuel] Hfuel; try lia.
  - exists (repr s). rewrite find_S, (vread_Some _ _ _ Ha), bind_Ret.
    rewrite bool_decide_eq_true_2, set_repr_id by done.
    split; [done|]. intros j x y Hj. exists j. split; [lia|done].
  - destruct (IH fuel ltac:(lia)) as (p1 & Hfind & Hdepth).
    destruct (find_Ret_inv _ _ _ _ _ Hfind) as (p1' & E & _ & Hlen & Hrep & _).
    assert (p1' = p1) as -> by (by injection E).
    pose proof (at_Some_range _ _ _ Ha) as Hrange.
    assert (rep_of p1 a r) as Har.
    { apply Hrep. eapply rep_of_step; [done|by eexists]. }
    destruct (at_in_range p1 a ltac:(lia)) as [o Ho].
    exists (<[Z.to_nat a := r]> p1).
    rewrite find_S, (vread_Some _ _ _ Ha), bind_Ret.
    rewrite bool_decide_eq_false_2 by done.
    rewrite Hfind, bind_Ret. simpl repr at 1.
    rewrite (vwrite_Some _ _ _ _ Ho), bind_Ret. simpl.
    rewrite (vread_Some _ _ r) by (apply at_insert_eq; lia).
    split; [done|]. intros j x y Hj.
    destruct (Hdepth _ _ _ Hj) as (j1 & Hj1 & H1).
    destruct (reaches_redirect_depth _ _ _ _ _ _ Har H1) as (j2 & Hj2 & H2).
    exists j2. split; [lia|done].
Qed.

(** Linking the representative [b] below [g] adds one step to the walks
    that ended in [b] and leaves the others. *)
Lemma reaches_link_depth p g b j x y :
  at_ p g = Some g → at_ p b = Some b → g ≠ b →
  reaches (<[Z.to_nat b := g]> p) j x y →
  (reaches p j x y ∧ y ≠ b) ∨ (∃ j0, j = S j0 ∧ reaches p j0 x b ∧ y = g).
Proof.
  intros Hg Hb Hne.
  pose proof (at_Some_range _ _ _ Hb) as Hbr.
  assert (∀ i, at_ (<[Z.to_nat b := g]> p) i = if decide (i = b) then Some g else at_ p i)
    as Hat by (intros; by apply at_insert).
  induction 1 as [x Hx|k x c y Hx Hxc H IH].
  - rewrite Hat in Hx. destruct (decide (x = b)) as [->|]; [congruence|].
    left. split; [by constructor|done].
  - rewrite Hat in Hx. destruct (decide (x = b)) as [->|].
    + simplify_eq. right. exists 0%nat.
      destruct IH as [[IH _]|(j0 & _ & IH & _)].
      * destruct (reaches_fun _ _ _ _ _ _ IH (reaches_root _ _ Hg)) as [-> ->].
        split; [done|]. split; [by constructor|done].
      * destruct (reaches_fun _ _ _ _ _ _ IH (reaches_root _ _ Hg)) as [_ ->]. done.
    + destruct IH as [[IH ?]|(j0 & -> & IH & ->)].
      * left. split; [by econstructor|done].
      * right. exists (S j0). split; [done|]. split; [by econstructor|done].
Qed.

Lemma balanced_set_repr s p' :
  balanced s →
  (∀ x y, rep_of p' x y ↔ rep_of (repr s) x y) →
  length p' = length (repr s) →
  (∀ j x y, reaches (repr s) j x y → ∃ j', (j' ≤ j)%nat ∧ reaches p' j' x y) →
  balanced (set_repr s p').
Proof.
  intros Hb Hrep Hlen Hdepth k a r Hk. simpl in Hk.
  destruct (proj1 (Hrep a r) ltac:(by eexists)) as [k0 Hk0].
  destruct (Hdepth _ _ _ Hk0) as (k1 & Hk1 & Hk1').
  destruct (reaches_fun _ _ _ _ _ _ Hk Hk1') as [-> _].
  rewrite (members_ext s (set_repr s p')) by (done || intros; apply Hrep).
  specialize (Hb _ _ _ Hk0).
  assert (2 ^ Z.of_nat k1 ≤ 2 ^ Z.of_nat k0) by (apply Z.pow_le_mono_r; lia). lia.
Qed.

Lemma balanced_find fuel a s r s' :
  balanced s → find fuel a s = Ret (r, s') → balanced s'.
Proof.
  intros Hb Hf.
  destruct (find_Ret_reaches _ _ _ _ _ Hf) as (k & Hk & Hreach).
  destruct (find_depth _ _ _ _ Hreach _ Hk) as (p' & Hf' & Hdepth).
  destruct (find_Ret_inv _ _ _ _ _ Hf) as (p'' & -> & _ & Hlen & Hrep & _).
  rewrite Hf in Hf'. assert (p'' = p') as -> by (by injection Hf').
  by apply balanced_set_repr.
Qed.

Lemma balanced_link s win lose cw cl iw il :
  wf s → balanced s →
  rep_of (repr s) win win → rep_of (repr s) lose lose → win ≠ lose →
  at_ (component_size s) win = Some cw →
  at_ (component_size s) lose = Some cl →
  at_ (additionalInfo s) win = Some iw →
  at_ (additionalInfo s) lose = Some il →
  cl ≤ cw →
  balanced (link s win lose cw cl iw il).
Proof.
  intros Hwf Hb Hw Hl Hne Hcw Hcl Hiw Hil Hle k a r Hk. simpl in Hk.
  destruct (linked_sizes s win lose cw cl Hwf Hw Hl Hcw Hcl) as [Ecw Ecl].
  assert (length (members (link s win lose cw cl iw il) win)
          = (length (members s win) + length (members s lose))%nat) as Hmw
    by (by apply linked_members_win).
  assert (∀ r, r ≠ win → r ≠ lose →
            members (link s win lose cw cl iw il) r = members s r) as Hmo
    by (intros; by apply linked_members_other).
  apply reaches_link_depth in Hk as [[Hk Hr]|(j0 & -> & Hk & ->)];
    [| |by apply is_rep_at|by apply is_rep_at|done].
  - specialize (Hb _ _ _ Hk). destruct (decide (r = win)) as [->|Hrw].
    + rewrite Hmw. lia.
    + by rewrite Hmo.
  - specialize (Hb _ _ _ Hk). rewrite Hmw.
    rewrite Nat2Z.inj_succ, Z.pow_succ_r by lia. lia.
Qed.

(** The structure a joining [merge] returns, with the smaller component
    below the larger. *)
Lemma merge_linked fuel x y s rx s1 ry s2 :
  wf s →
  find fuel x s = Ret (rx, s1) → find fuel y s1 = Ret (ry, s2) → rx ≠ ry →
  ∃ win lose cw cl iw il,
    merge fuel x y s = Ret (link s2 win lose cw cl iw il) ∧
    wf s2 ∧
    rep_of (repr s2) win win ∧ rep_of (repr s2) lose lose ∧ win ≠ lose ∧
    at_ (component_size s2) win = Some cw ∧
    at_ (component_size s2) lose = Some cl ∧
    at_ (additionalInfo s2) win = Some iw ∧
    at_ (additionalInfo s2) lose = Some il ∧
    cl ≤ cw.
Proof.
  intros Hwf H1 H2 Hne.
  destruct (find_Ret_inv _ _ _ _ _ H1) as (p1 & E1 & Hx & Hlen1 & Hrep1 & _).
  pose proof (wf_find _ _ _ _ _ Hwf H1) as Hwf1.
  destruct (find_Ret_inv _ _ _ _ _ H2) as (p2 & E2 & Hy & Hlen2 & Hrep2 & _).
  pose proof (wf_find _ _ _ _ _ Hwf1 H2) as Hwf2.
  assert (rep_of (repr s2) rx rx) as Hrx.
  { subst. simpl in *. apply Hrep2, Hrep1. by eapply rep_of_idem. }
  assert (rep_of (repr s2) ry ry) as Hry.
  { subst. simpl in *. apply Hrep2. by eapply rep_of_idem. }
  pose proof (wf_size _ Hwf2 _ Hrx) as Hcx. pose proof (wf_size _ Hwf2 _ Hry) as Hcy.
  destruct (wf_info _ Hwf2 _ Hrx) as (lox & hix & Hix & _).
  destruct (wf_info _ Hwf2 _ Hry) as (loy & hiy & Hiy & _).
  set (cx := Z.of_nat (length (members s2 rx))) in *.
  set (cy := Z.of_nat (length (members s2 ry))) in *.
  destruct (bool_decide (cy > cx)) eqn:Hswap.
  - assert (is_int (cy + cx)) as Hint by (by eapply (linked_no_overflow s2 ry rx)).
    apply bool_decide_eq_true in Hswap as Hgt.
    exists ry, rx, cy, cx, (loy, hiy), (lox, hix). split.
    { eapply merge_link; try done; [by rewrite Hswap|by apply is_rep_at]. }
    split_and!; try done; lia.
  - assert (is_int (cx + cy)) as Hint by (by eapply (linked_no_overflow s2 rx ry)).
    apply bool_decide_eq_false in Hswap as Hgt.
    exists rx, ry, cx, cy, (lox, hix), (loy, hiy). split.
    { eapply merge_link; try done; [by rewrite Hswap|by apply is_rep_at]. }
    split_and!; try done; lia.
Qed.

Lemma balanced_merge fuel x y s s' :
  wf s → balanced s → merge fuel x y s = Ret s' → balanced s'.
Proof.
  intros Hwf Hb Hm.
  destruct (find fuel x s) as [[rx s1]| | |] eqn:H1;
    try (unfold merge in Hm; rewrite H1 in Hm; done).
  destruct (find fuel y s1) as [[ry s2]| | |] eqn:H2;
    try (unfold merge in Hm; rewrite H1, bind_Ret, H2 in Hm; done).
  pose proof (balanced_find _ _ _ _ _ Hb H1) as Hb1.
  pose proof (balanced_find _ _ _ _ _ Hb1 H2) as Hb2.
  destruct (decide (rx = ry)) as [<-|Hne].
  - rewrite (merge_same _ _ _ _ _ _ _ H1 H2) in Hm. by injection Hm as <-.
  - destruct (merge_linked _ _ _ _ _ _ _ _ Hwf H1 H2 Hne)
      as (win & lose & cw & cl & iw & il & Hm' & Hwf2 & ? & ? & ? & ? & ? & ? & ? & ?).
    rewrite Hm in Hm'. injection Hm' as ->. by apply balanced_link.
Qed.

Lemma balanced_ctor n s : is_int n → union_find_ctor n = Ret s → balanced s.
Proof.
  intros Hn Hc k a r Hk.
  pose proof (wf_ctor _ _ Hn Hc) as Hwf.
  assert (repr s = seqZ 0 n) as Hrepr.
  { rewrite union_find_ctor_eq in Hc. by injection Hc as <-. }
  assert (rep_of (repr s) a r) as Har by (by eexists).
  pose proof Har as Har'. rewrite Hrepr in Har'. apply rep_of_seqZ in Har' as [Ha ->].
  assert (reaches (repr s) 0 a a) as H0.
  { constructor. rewrite Hrepr. by apply at_seqZ. }
  destruct (reaches_fun _ _ _ _ _ _ Hk H0) as [-> _].
  pose proof (members_rep_nonempty _ a Har). simpl. lia.
Qed.

Lemma reachable_balanced s : reachable s → balanced s.
Proof.
  induction 1 as [n s Hn Hc|fuel a s r s' Hs IH Hf|fuel a s n s' Hs IH Hsz
                 |fuel x y s s' Hs IH Hm|fuel u v s b s' Hs IH Hg].
  - by eapply balanced_ctor.
  - by eapply balanced_find.
  - destruct (size_Ret_inv _ _ _ _ _ (reachable_wf _ Hs) Hsz) as (r & Hf & _).
    by eapply balanced_find.
  - eapply balanced_merge; [by apply reachable_wf|done|done].
  - destruct (get_Ret_inv _ _ _ _ _ _ Hg) as (ru & s1 & rv & H1 & H2 & _).
    eapply balanced_find; [|done]. by eapply balanced_find.
Qed.

(** X11.  Linking the smaller component below the larger keeps every
    walk logarithmic: in a reachable structure the walk from a valid
    element to its representative has [k] steps with [2 ^ k] at most the
    size of the component, hence at most the number of elements; so
    [find] returns as soon as the fuel [f] satisfies [n < 2 ^ f]. *)
Theorem size_heuristic_bounds_walks s fuel a :
  reachable s →
  0 ≤ a < Z.of_nat (length (repr s)) →
  Z.of_nat (length (repr s)) < 2 ^ Z.of_nat fuel →
  ∃ r k c s',
    reaches (repr s) k a r ∧
    size_of s a = Some c ∧
    2 ^ Z.of_nat k ≤ c ∧ c ≤ Z.of_nat (length (repr s)) ∧
    find fuel a s = Ret (r, s').
Proof.
  intros Hreach Ha Hfuel.
  pose proof (reachable_wf _ Hreach) as Hwf.
  pose proof (reachable_balanced _ Hreach) as Hb.
  destruct (wf_rep _ Hwf a Ha) as [r [k Hk]].
  specialize (Hb _ _ _ Hk).
  assert (length (members s r) ≤ length (repr s))%nat as Hle.
  { rewrite <-length_elements. apply length_filter. }
  assert (k < fuel)%nat as Hkf.
  { destruct (decide (k < fuel)%nat) as [|Hge]; [done|].
    assert (2 ^ Z.of_nat fuel ≤ 2 ^ Z.of_nat k) by (apply Z.pow_le_mono_r; lia). lia. }
  destruct (find_reaches _ _ _ _ Hk _ Hkf) as (p' & Hf & _).
  exists r, k, (Z.of_nat (length (members s r))), (set_repr s p').
  split_and!; try done; [|lia].
  rewrite size_of_spec by done.
  by rewrite (proj2 (find_rep_rep_of s a r) ltac:(by eexists)).
Qed.

Lemma size_heuristic_bounds_walks_witness :
  reachable scenario ∧
  0 ≤ 3 < Z.of_nat (length (repr scenario)) ∧
  Z.of_nat (length (repr scenario)) < 2 ^ Z.of_nat 3 ∧
  ∃ r k c s',
    reaches (repr scenario) k 3 r ∧
    size_of scenario 3 = Some c ∧
    2 ^ Z.of_nat k ≤ c ∧ c ≤ Z.of_nat (length (repr scenario)) ∧
    find 3 3 scenario = Ret (r, s').
Proof.
  assert (0 ≤ 3 < Z.of_nat (length (repr scenario))) as Ha by (simpl; lia).
  assert (Z.of_nat (length (repr scenario)) < 2 ^ Z.of_nat 3) as Hfuel by (simpl; lia).
  split; [apply scenario_reachable|]. split; [apply Ha|]. split; [apply Hfuel|].
  apply (size_heuristic_bounds_walks scenario 3 3 scenario_reachable Ha Hfuel).
Defined.

(** X12.  [find] rewrites only the nodes of its own walk: an entry of
    [repr] outside the walk from [a] to its representative is what it
    was, every entry on the walk is the representative, and an element
    that was its own representative still is. *)
Theorem find_touches_only_its_walk fuel a s r s' :
  find fuel a s = Ret (r, s') →
  (∀ x, ¬ on_path (repr s) a x → at_ (repr s') x = at_ (repr s) x) ∧
  (∀ x, on_path (repr s) a x → at_ (repr s') x = Some r) ∧
  (∀ x, at_ (repr s) x = Some x ↔ at_ (repr s') x = Some x).
Proof.
  intros Hf.
  destruct (find_Ret_inv _ _ _ _ _ Hf) as (p' & -> & _ & _ & Hrep & Hon & Hoff).
  split; [done|]. split; [done|].
  intros x. simpl. by rewrite <-!is_rep_at, Hrep.
Qed.

Lemma find_touches_only_its_walk_witness :
  find 5 3 scenario = Ret (0, scenario_flat) ∧
  (∀ x, ¬ on_path (repr scenario) 3 x → at_ (repr scenario_flat) x = at_ (repr scenario) x) ∧
  (∀ x, on_path (repr scenario) 3 x → at_ (repr scenario_flat) x = Some 0) ∧
  (∀ x, at_ (repr scenario) x = Some x ↔ at_ (repr scenario_flat) x = Some x).
Proof.
  split; [reflexivity|].
  apply (find_touches_only_its_walk 5 3 scenario 0 scenario_flat eq_refl).
Defined.

Lemma members_within s r lo hi :
  (∀ i, rep_of (repr s) i r → lo ≤ i ≤ hi) →
  Z.of_nat (length (members s r)) ≤ Z.max 0 (hi - lo + 1).
Proof.
  intros Hb.
  assert (members s r ⊆+ seqZ lo (hi - lo + 1)) as Hsub.
  { apply NoDup_submseteq; [apply NoDup_members|].
    intros i Hi%elem_of_members%Hb. apply elem_of_seqZ. lia. }
  apply submseteq_length in Hsub. rewrite length_seqZ in Hsub. lia.
Qed.

(** X13.  Everything a reachable structure stores is in range: the three
    vectors have the same length [n], at most [INT_MAX]; every entry of
    [repr] is an element; every stored size lies between 0 and [n] and
    every [size] answer between 1 and [n]; the component count lies
    between 0 and [n] and is at least 1 when there are elements; and the
    bounds stored at a representative enclose it, lie among the
    elements, and span at least as many integers as the component has
    elements. *)
Theorem stored_values_in_range s :
  reachable s →
  Z.of_nat (length (repr s)) ≤ INT_MAX ∧
  length (component_size s) = length (repr s) ∧
  length (additionalInfo s) = length (repr s) ∧
  (∀ i v, at_ (repr s) i = Some v → 0 ≤ v < Z.of_nat (length (repr s))) ∧
  (∀ i c, at_ (component_size s) i = Some c → 0 ≤ c ≤ Z.of_nat (length (repr s))) ∧
  (∀ a c, size_of s a = Some c → 1 ≤ c ≤ Z.of_nat (length (repr s))) ∧
  (∃ c, count_islands s = Ret c ∧ 0 ≤ c ≤ Z.of_nat (length (repr s)) ∧
     (0 < Z.of_nat (length (repr s)) → 1 ≤ c)) ∧
  (∀ r lo hi c,
     at_ (repr s) r = Some r →
     at_ (additionalInfo s) r = Some (lo, hi) →
     at_ (component_size s) r = Some c →
     0 ≤ lo ∧ lo ≤ r ∧ r ≤ hi ∧ hi < Z.of_nat (length (repr s)) ∧ c ≤ hi - lo + 1).
Proof.
  intros Hwf%reachable_wf.
  assert (∀ r, (length (members s r) ≤ length (repr s))%nat) as Hmem.
  { intros r. rewrite <-length_elements. apply length_filter. }
  split; [apply Hwf|]. split; [apply Hwf|]. split; [apply Hwf|]. split_and!.
  - intros i v Hi. pose proof (at_Some_range _ _ _ Hi) as Hir.
    destruct (wf_rep _ Hwf i Hir) as [r Hr].
    eapply rep_of_range. by eapply rep_of_next.
  - intros i c Hi. pose proof (at_Some_range _ _ _ Hi) as Hir.
    rewrite (wf_size_len _ Hwf) in Hir.
    destruct (wf_rep _ Hwf i Hir) as [r Hr].
    destruct (decide (r = i)) as [->|Hne].
    + rewrite (wf_size _ Hwf _ Hr) in Hi. injection Hi as <-. specialize (Hmem i). lia.
    + rewrite (wf_absorbed _ Hwf i Hir) in Hi; [injection Hi as <-; lia|].
      intros Hi'. apply Hne. by eapply rep_of_fun.
  - intros a c. rewrite size_of_spec by done.
    destruct (find_rep s a) as [r|] eqn:Ha; [|done]. simpl. intros [= <-].
    apply find_rep_rep_of, rep_of_idem in Ha.
    pose proof (members_rep_nonempty _ _ Ha). specialize (Hmem r). lia.
  - exists (Z.of_nat (length (representatives s))).
    split; [by apply count_islands_representatives|]. split.
    + pose proof (length_filter (λ r, at_ (repr s) r = Some r) (elements s)) as Hle.
      rewrite length_elements in Hle. unfold representatives. lia.
    + intros Hn. destruct (wf_rep _ Hwf 0 ltac:(lia)) as [r Hr].
      apply rep_of_idem, elem_of_representatives in Hr.
      destruct (representatives s); [by apply elem_of_nil in Hr|simpl; lia].
  - intros r lo hi c Hr%is_rep_at Hinfo Hc.
    destruct (wf_info _ Hwf _ Hr) as (lo' & hi' & Hinfo' & Hlo & Hhi & Hb).
    rewrite Hinfo in Hinfo'. injection Hinfo' as <- <-.
    rewrite (wf_size _ Hwf _ Hr) in Hc. injection Hc as <-.
    pose proof (Hb r Hr) as Hrb.
    pose proof (rep_of_range _ _ _ Hlo). pose proof (rep_of_range _ _ _ Hhi).
    pose proof (members_within s r lo hi Hb). lia.
Qed.

Lemma stored_values_in_range_witness :
  reachable scenario ∧
  Z.of_nat (length (repr scenario)) ≤ INT_MAX ∧
  length (component_size scenario) = length (repr scenario) ∧
  length (additionalInfo scenario) = length (repr scenario) ∧
  (∀ i v, at_ (repr scenario) i = Some v → 0 ≤ v < Z.of_nat (length (repr scenario))) ∧
  (∀ i c, at_ (component_size scenario) i = Some c →
     0 ≤ c ≤ Z.of_nat (length (repr scenario))) ∧
  (∀ a c, size_of scenario a = Some c → 1 ≤ c ≤ Z.of_nat (length (repr scenario))) ∧
  (∃ c, count_islands scenario = Ret c ∧ 0 ≤ c ≤ Z.of_nat (length (repr scenario)) ∧
     (0 < Z.of_nat (length (repr scenario)) → 1 ≤ c)) ∧
  (∀ r lo hi c,
     at_ (repr scenario) r = Some r →
     at_ (additionalInfo scenario) r = Some (lo, hi) →
     at_ (component_size scenario) r = Some c →
     0 ≤ lo ∧ lo ≤ r ∧ r ≤ hi ∧ hi < Z.of_nat (length (repr scenario)) ∧ c ≤ hi - lo + 1).
Proof.
  split; [apply scenario_reachable|].
  apply (stored_values_in_range scenario scenario_reachable).
Defined.
